(** * Adaptive Cruise Control: the controller of AdaptiveCruiseControl.cpp

    A shallow embedding of the class [AdaptiveCruiseControl]
    (AdaptiveCruiseControl.h / AdaptiveCruiseControl.cpp), the properties
    its specification states about it, and further properties of the
    control policy, the telemetry updates and the two renderers.

    The C++ fields are [double]s.  They are modelled by Rocq's primitive
    binary64 floats ([PrimFloat.float]), so every arithmetic operation and
    every comparison below rounds, overflows and treats NaN exactly as the
    compiled program does on an IEEE 754 machine (round to nearest even,
    every operation rounded to binary64), and every definition can be
    evaluated on concrete telemetry.  Universally quantified facts about
    the float operations are derived from their specification over
    [spec_float] ([FloatAxioms]).

    Member functions that assign fields are functions from the object to
    the object; [const] member functions are functions from the object to
    their result; the two that write to [std::cout] or to the log file act
    on a [World]. *)

From Stdlib Require Import ZArith Lia Bool List String Floats.
Import ListNotations.

Set Warnings "-inexact-float".

Local Open Scope string_scope.

(** ** The C++ comparison operators the source uses on doubles *)

Module Cpp.

(** [a > b] *)
Definition gtb (a b : float) : bool := (b <? a)%float.
(** [a >= b] *)
Definition geb (a b : float) : bool := (b <=? a)%float.

(** [std::max(a, b)] is [(a < b) ? b : a]. *)
Definition max (a b : float) : float := if (a <? b)%float then b else a.
(** [std::min(a, b)] is [(b < a) ? b : a]. *)
Definition min (a b : float) : float := if (b <? a)%float then b else a.

End Cpp.

Declare Scope cpp_scope.
Delimit Scope cpp_scope with cpp.
Infix "<" := PrimFloat.ltb : cpp_scope.
Infix "<=" := PrimFloat.leb : cpp_scope.
Infix ">" := Cpp.gtb : cpp_scope.
Infix ">=" := Cpp.geb : cpp_scope.
Infix "*" := PrimFloat.mul : cpp_scope.
Infix "/" := PrimFloat.div : cpp_scope.
Infix "+" := PrimFloat.add : cpp_scope.
Infix "-" := PrimFloat.sub : cpp_scope.

(** ** The controller object *)

(** The four private fields of [class AdaptiveCruiseControl]. *)
Record AdaptiveCruiseControl : Type := Build_ACC {
  egoSpeed : float;               (* Speed of the ego vehicle (km/h) *)
  aheadVehicleSpeed : float;      (* Speed of the vehicle ahead (km/h) *)
  distanceToAheadVehicle : float; (* Distance to the vehicle ahead (meters) *)
  logFileName : string            (* Name of the log file *)
}.

Abbreviation ACC := AdaptiveCruiseControl.

(** The constructor: a member-initialiser list and an empty body. *)
Definition construct (egoSpeed0 aheadVehicleSpeed0 distance : float)
    (logFile : string) : ACC :=
  {| egoSpeed := egoSpeed0;
     aheadVehicleSpeed := aheadVehicleSpeed0;
     distanceToAheadVehicle := distance;
     logFileName := logFile |}.

(** The constructor called with every default argument of the header. *)
Definition construct_default : ACC := construct 0 0 0 "acc_log.txt".

(** Accessors of the header. *)
Definition getEgoSpeed (c : ACC) : float := egoSpeed c.
Definition getAheadVehicleSpeed (c : ACC) : float := aheadVehicleSpeed c.
Definition getDistance (c : ACC) : float := distanceToAheadVehicle c.
Definition getLogFileName (c : ACC) : string := logFileName c.

Definition setLogFileName (fileName : string) (c : ACC) : ACC :=
  {| egoSpeed := egoSpeed c;
     aheadVehicleSpeed := aheadVehicleSpeed c;
     distanceToAheadVehicle := distanceToAheadVehicle c;
     logFileName := fileName |}.

(** Assignments to single fields, as the method bodies perform them. *)
Definition set_egoSpeed (v : float) (c : ACC) : ACC :=
  {| egoSpeed := v;
     aheadVehicleSpeed := aheadVehicleSpeed c;
     distanceToAheadVehicle := distanceToAheadVehicle c;
     logFileName := logFileName c |}.

Definition set_aheadVehicleSpeed (v : float) (c : ACC) : ACC :=
  {| egoSpeed := egoSpeed c;
     aheadVehicleSpeed := v;
     distanceToAheadVehicle := distanceToAheadVehicle c;
     logFileName := logFileName c |}.

Definition set_distanceToAheadVehicle (v : float) (c : ACC) : ACC :=
  {| egoSpeed := egoSpeed c;
     aheadVehicleSpeed := aheadVehicleSpeed c;
     distanceToAheadVehicle := v;
     logFileName := logFileName c |}.

(** ** Telemetry updates *)

Definition updateAheadVehicleSpeed (speed : float) (c : ACC) : ACC :=
  if (speed >= 0)%cpp then set_aheadVehicleSpeed speed c else c.

Definition updateDistance (distance : float) (c : ACC) : ACC :=
  if (distance >= 0)%cpp then set_distanceToAheadVehicle distance c else c.

(** ** The control policy *)

(** A [const] method: it reads the object and returns a value. *)
Definition calculateSafeDistance (c : ACC) : float :=
  (egoSpeed c * (5 / 9))%cpp.

Definition adjustSpeed (c : ACC) : ACC :=
  let safeDistance := calculateSafeDistance c in
  if (distanceToAheadVehicle c < safeDistance)%cpp then
    if (aheadVehicleSpeed c < egoSpeed c)%cpp then
      set_egoSpeed (aheadVehicleSpeed c) c
    else
      set_egoSpeed (Cpp.max 0 (egoSpeed c - 5)%cpp) c
  else if (distanceToAheadVehicle c > safeDistance * 1.5)%cpp then
    if (aheadVehicleSpeed c > egoSpeed c)%cpp && (egoSpeed c < 120)%cpp then
      set_egoSpeed (Cpp.min 120 (egoSpeed c + 2)%cpp) c
    else c
  else c.

(** ** Console and log output *)

(** What the two output methods act on: the lines written so far to
    [std::cout], the lines of every file, which paths an
    [std::ofstream (name, std::ios::app)] manages to open, and the text
    [ctime (&now)] returns (without its final newline). *)
Record World : Type := Build_World {
  console : list string;
  files : string -> list string;
  can_open : string -> bool;
  ctime_now : string
}.

(** [std::cout << line << std::endl] *)
Definition cout (line : string) (w : World) : World :=
  {| console := (console w ++ [line])%list;
     files := files w;
     can_open := can_open w;
     ctime_now := ctime_now w |}.

(** [logFile << line << std::endl] on the stream opened on [path]. *)
Definition fout (path line : string) (w : World) : World :=
  {| console := console w;
     files := fun p => if String.eqb p path then (files w p ++ [line])%list
                       else files w p;
     can_open := can_open w;
     ctime_now := ctime_now w |}.

Section Rendering.

(** The text [operator<<] produces for a double on a stream set to
    [std::fixed << std::setprecision (1)]: library code, taken as given. *)
Variable fixed1 : float -> string.

Definition displayStatus (c : ACC) (w : World) : World :=
  let safeDistance := calculateSafeDistance c in
  let w := cout ("Current Speed: " ++ fixed1 (egoSpeed c) ++ " km/h") w in
  let w := cout ("Car Ahead Speed: " ++ fixed1 (aheadVehicleSpeed c) ++ " km/h") w in
  let w := cout ("Distance: " ++ fixed1 (distanceToAheadVehicle c) ++ " m") w in
  let w := cout ("Safe Distance: " ++ fixed1 safeDistance ++ " m") w in
  let w :=
    if (distanceToAheadVehicle c < safeDistance)%cpp then
      cout ("⚠ Too close! Reduce speed to " ++ fixed1 (aheadVehicleSpeed c) ++ " km/h") w
    else if (distanceToAheadVehicle c > safeDistance * 1.2)%cpp then
      cout "✅ Safe gap maintained — Hold speed" w
    else
      cout "⚠ Caution — Maintain current speed" w in
  cout "-------------------------------------" w.

Definition saveStatusToFile (c : ACC) (w : World) : World :=
  if can_open w (logFileName c) then
    let logFile := fout (logFileName c) in
    let dt := ctime_now w in
    let safeDistance := calculateSafeDistance c in
    let w := logFile "=== ACC Status Record ===" w in
    let w := logFile ("Timestamp: " ++ dt) w in
    let w := logFile ("Current Speed: " ++ fixed1 (egoSpeed c) ++ " km/h") w in
    let w := logFile ("Car Ahead Speed: " ++ fixed1 (aheadVehicleSpeed c) ++ " km/h") w in
    let w := logFile ("Distance: " ++ fixed1 (distanceToAheadVehicle c) ++ " m") w in
    let w := logFile ("Safe Distance: " ++ fixed1 safeDistance ++ " m") w in
    let w :=
      if (distanceToAheadVehicle c < safeDistance)%cpp then
        logFile ("Status: Too close! Reduce speed to " ++ fixed1 (aheadVehicleSpeed c) ++ " km/h") w
      else if (distanceToAheadVehicle c > safeDistance * 1.2)%cpp then
        logFile "Status: Safe gap maintained — Hold speed" w
      else
        logFile "Status: Caution — Maintain current speed" w in
    let w := logFile "-------------------------------------" w in
    cout ("Status saved to log file: " ++ logFileName c) w
  else
    cout "Error: Could not open log file for writing!" w.

(** *** The public interface as one transition system

    A caller holds one controller and the outside world; each member
    function it can call is one transition on the pair. *)
Inductive Call : Type :=
| CallUpdateAheadVehicleSpeed (speed : float)
| CallUpdateDistance (distance : float)
| CallAdjustSpeed
| CallDisplayStatus
| CallSaveStatusToFile
| CallSetLogFileName (fileName : string).

Definition exec (op : Call) (cw : ACC * World) : ACC * World :=
  let (c, w) := cw in
  match op with
  | CallUpdateAheadVehicleSpeed speed => (updateAheadVehicleSpeed speed c, w)
  | CallUpdateDistance distance => (updateDistance distance c, w)
  | CallAdjustSpeed => (adjustSpeed c, w)
  | CallDisplayStatus => (c, displayStatus c w)
  | CallSaveStatusToFile => (c, saveStatusToFile c w)
  | CallSetLogFileName fileName => (setLogFileName fileName c, w)
  end.

(** A caller's session: the calls of [ops] made one after the other. *)
Definition run (ops : list Call) (cw : ACC * World) : ACC * World :=
  fold_left (fun cw op => exec op cw) ops cw.

End Rendering.

(** ** The advisory classification, as the specification words it *)

Inductive Advisory : Type := TooClose | HoldSpeed | Caution.

(** Too close when the gap is below the safe distance, hold speed when it
    exceeds 1.2 times the safe distance, caution otherwise. *)
Definition advisory_spec (c : ACC) : Advisory :=
  let safeDistance := (egoSpeed c * (5 / 9))%cpp in
  if (distanceToAheadVehicle c < safeDistance)%cpp then TooClose
  else if (distanceToAheadVehicle c > 1.2 * safeDistance)%cpp then HoldSpeed
  else Caution.

Definition console_advisory (fixed1 : float -> string) (c : ACC)
    (a : Advisory) : string :=
  match a with
  | TooClose => "⚠ Too close! Reduce speed to " ++ fixed1 (aheadVehicleSpeed c) ++ " km/h"
  | HoldSpeed => "✅ Safe gap maintained — Hold speed"
  | Caution => "⚠ Caution — Maintain current speed"
  end.

Definition log_advisory (fixed1 : float -> string) (c : ACC)
    (a : Advisory) : string :=
  match a with
  | TooClose => "Status: Too close! Reduce speed to " ++ fixed1 (aheadVehicleSpeed c) ++ " km/h"
  | HoldSpeed => "Status: Safe gap maintained — Hold speed"
  | Caution => "Status: Caution — Maintain current speed"
  end.

(** The four telemetry lines both renderers write before the advisory. *)
Definition telemetry_lines (fixed1 : float -> string) (c : ACC) : list string :=
  [ "Current Speed: " ++ fixed1 (egoSpeed c) ++ " km/h";
    "Car Ahead Speed: " ++ fixed1 (aheadVehicleSpeed c) ++ " km/h";
    "Distance: " ++ fixed1 (distanceToAheadVehicle c) ++ " m";
    "Safe Distance: " ++ fixed1 (calculateSafeDistance c) ++ " m" ].

(** The line that closes a status block. *)
Definition rule : string := "-------------------------------------".

(** ** Binary64: order and exact values

    The vocabulary in which the properties of the controller are stated
    ([le], [lt]: what the C++ operators [<=] and [<] decide) and in which
    the rounding of the arithmetic is analysed. *)

Module B64.

Local Open Scope Z_scope.

Definition le (x y : float) : Prop := (x <=? y)%float = true.

Definition lt (x y : float) : Prop := (x <? y)%float = true.

(** A lexicographic key whose order is the order [SFcompare] decides. *)
Definition key (x : spec_float) : Z * Z * Z :=
  match x with
  | S754_zero _ => (0, 0, 0)
  | S754_infinity s => (if s then -2 else 2, 0, 0)
  | S754_nan => (0, 0, 0)
  | S754_finite s m e => if s then (-1, - e, Zneg m) else (1, e, Zpos m)
  end.

Definition SFis_nan (x : spec_float) : bool :=
  match x with S754_nan => true | _ => false end.

Definition key_lt (k1 k2 : Z * Z * Z) : Prop :=
  let '(a1, b1, c1) := k1 in
  let '(a2, b2, c2) := k2 in
  a1 < a2 \/ (a1 = a2 /\ (b1 < b2 \/ (b1 = b2 /\ c1 < c2))).

Definition key_le (k1 k2 : Z * Z * Z) : Prop :=
  let '(a1, b1, c1) := k1 in
  let '(a2, b2, c2) := k2 in
  a1 < a2 \/ (a1 = a2 /\ (b1 < b2 \/ (b1 = b2 /\ c1 <= c2))).

(** The value of mantissa [m] at exponent [e], in units of 2^-2200: an
    integer for every exponent a binary64 sum or product can meet. *)
Definition val (m e : Z) : Z := m * 2 ^ (e + 2200).

(** How [binary_round_aux] packs the rounded mantissa and exponent. *)
Definition pack (s : bool) (m e : Z) : spec_float :=
  match m with
  | Z0 => S754_zero s
  | Zpos p => if e <=? emax - prec then S754_finite s p e else S754_infinity s
  | Zneg _ => S754_nan
  end.

Definition nonneg (x : spec_float) : Prop :=
  match x with
  | S754_zero _ => True
  | S754_infinity s | S754_finite s _ _ => s = false
  | S754_nan => False
  end.

Definition nonpos (x : spec_float) : Prop :=
  match x with
  | S754_zero _ => True
  | S754_infinity s | S754_finite s _ _ => s = true
  | S754_nan => False
  end.

(** The exact value of a finite double, in the units of [val]: a double
    [x] is the real number [v / 2^2200] when [exact_value (Prim2SF x)] is
    [Some v]. *)
Definition exact_value (x : spec_float) : option Z :=
  match x with
  | S754_zero _ => Some 0
  | S754_finite s m e => Some (val (if s then Zneg m else Zpos m) e)
  | _ => None
  end.

End B64.

(** The three telemetry fields are non-negative. *)
Definition telemetry_nonneg (c : ACC) : Prop :=
  B64.le 0 (egoSpeed c) /\ B64.le 0 (aheadVehicleSpeed c)
  /\ B64.le 0 (distanceToAheadVehicle c).

(** ** Rounding to nearest even, in its two halves

    Every binary64 sum and product is rounded by [binary_round_aux]; its
    body is named here in two halves, with the invariants of the shift
    records and of the result the analysis of the rounding works with. *)

Module B64Round.

Local Open Scope Z_scope.

(** The first half of [binary_round_aux]: truncation to the target exponent
    and rounding of the mantissa to nearest even. *)
Definition round_grid (m e : Z) : Z * Z :=
  let '(r1, e1) := shr_fexp prec emax m e loc_Exact in
  (round_nearest_even (shr_m r1) (loc_of_shr_record r1), e1).

(** Both halves: the mantissa and exponent [binary_round_aux] packs, after
    the second truncation has renormalised a mantissa the rounding carried
    to 2^53. *)
Definition round_core (m e : Z) : Z * Z :=
  let '(m2, e1) := round_grid m e in
  let '(r3, e3) := shr_fexp prec emax m2 e1 loc_Exact in
  (shr_m r3, e3).

(** What the round and sticky bits of a shift record say after [k] shifts
    of [m0]. *)
Definition shr_inv (m0 k : Z) (r : shr_record) : Prop :=
  0 <= shr_m r /\
  (if shr_r r then 2 ^ k else 0) <= 2 * (m0 - shr_m r * 2 ^ k)
    < (if shr_r r then 2 ^ k else 0) + 2 ^ k /\
  (shr_s r = true <-> 2 * (m0 - shr_m r * 2 ^ k) <> (if shr_r r then 2 ^ k else 0)).

(** Zero, or a mantissa and exponent in the form binary64 stores. *)
Definition stored (m e : Z) : Prop :=
  0 <= m < 2 ^ 53 /\ -1074 <= e /\ (-1074 < e -> 2 ^ 52 <= m).

End B64Round.

(** * Facts about binary64 comparison and rounding *)

Module B64Facts.

Import B64.
Local Open Scope Z_scope.

(** ** The order *)

Lemma SFcompare_key (x y : spec_float) :
  SFcompare x y =
  if SFis_nan x || SFis_nan y then None
  else Some (let '(a1, b1, c1) := key x in
             let '(a2, b2, c2) := key y in
             match a1 ?= a2 with
             | Eq => match b1 ?= b2 with Eq => c1 ?= c2 | r => r end
             | r => r
             end).
Proof.
  destruct x as [sx|sx| |sx mx ex], y as [sy|sy| |sy my ey]; simpl;
    try reflexivity;
    try (destruct sx; reflexivity); try (destruct sy; reflexivity);
    try (destruct sx, sy; reflexivity).
  destruct sx, sy; simpl; try reflexivity.
  f_equal.
  destruct (Z.compare_spec ex ey), (Z.compare_spec (- ex) (- ey));
    try lia; reflexivity.
Qed.

Lemma SFltb_key (x y : spec_float) :
  SFltb x y = true <->
  SFis_nan x = false /\ SFis_nan y = false /\ key_lt (key x) (key y).
Proof.
  unfold SFltb. rewrite SFcompare_key.
  destruct (SFis_nan x), (SFis_nan y); simpl; try (split; [discriminate | intros (? & ? & ?); discriminate]).
  destruct (key x) as [[a1 b1] c1], (key y) as [[a2 b2] c2]. unfold key_lt.
  destruct (Z.compare_spec a1 a2), (Z.compare_spec b1 b2), (Z.compare_spec c1 c2);
    split; try discriminate; try (intros (_ & _ & ?); lia); intros _; repeat split; lia.
Qed.

Lemma SFleb_key (x y : spec_float) :
  SFleb x y = true <->
  SFis_nan x = false /\ SFis_nan y = false /\ key_le (key x) (key y).
Proof.
  unfold SFleb. rewrite SFcompare_key.
  destruct (SFis_nan x), (SFis_nan y); simpl; try (split; [discriminate | intros (? & ? & ?); discriminate]).
  destruct (key x) as [[a1 b1] c1], (key y) as [[a2 b2] c2]. unfold key_le.
  destruct (Z.compare_spec a1 a2), (Z.compare_spec b1 b2), (Z.compare_spec c1 c2);
    split; try discriminate; try (intros (_ & _ & ?); lia); intros _; repeat split; lia.
Qed.

Lemma lt_key (x y : float) :
  lt x y <-> SFis_nan (Prim2SF x) = false /\ SFis_nan (Prim2SF y) = false
             /\ key_lt (key (Prim2SF x)) (key (Prim2SF y)).
Proof. unfold lt. rewrite ltb_spec. apply SFltb_key. Qed.

Lemma le_key (x y : float) :
  le x y <-> SFis_nan (Prim2SF x) = false /\ SFis_nan (Prim2SF y) = false
             /\ key_le (key (Prim2SF x)) (key (Prim2SF y)).
Proof. unfold le. rewrite leb_spec. apply SFleb_key. Qed.

Ltac by_keys :=
  rewrite ?lt_key, ?le_key in *;
  repeat match goal with
         | H : _ /\ _ |- _ => destruct H
         end;
  repeat match goal with
         | |- context [key ?x] => destruct (key x) as [[? ?] ?]
         | H : context [key ?x] |- _ => destruct (key x) as [[? ?] ?]
         end;
  unfold key_lt, key_le in *; repeat split; try assumption; try lia.

Ltac keys := simpl; cbv [key key_le key_lt SFis_nan] in *; repeat split; lia.

Lemma lt_le (x y : float) : lt x y -> le x y.
Proof. intros H. by_keys. Qed.

Lemma lt_le_trans (x y z : float) : lt x y -> le y z -> lt x z.
Proof. intros H1 H2. by_keys. Qed.

Lemma le_lt_trans (x y z : float) : le x y -> lt y z -> lt x z.
Proof. intros H1 H2. by_keys. Qed.

Lemma le_trans (x y z : float) : le x y -> le y z -> le x z.
Proof. intros H1 H2. by_keys. Qed.

Lemma lt_irrefl (x : float) : ~ lt x x.
Proof. intros H. by_keys. Qed.

Lemma lt_not_le (x y : float) : lt x y -> (y <=? x)%float = false.
Proof.
  intros H. destruct (y <=? x)%float eqn:E; [|reflexivity].
  exfalso. apply (lt_irrefl x). apply lt_le_trans with y; assumption.
Qed.

Lemma le_not_lt (x y : float) : le x y -> (y <? x)%float = false.
Proof.
  intros H. destruct (y <? x)%float eqn:E; [|reflexivity].
  exfalso. apply (lt_irrefl x). apply le_lt_trans with y; assumption.
Qed.

Lemma fexp_eq (x : Z) : fexp prec emax x = Z.max (x - 53) (-1074).
Proof. reflexivity. Qed.

Lemma digits2_pos_size (p : positive) : digits2_pos p = Pos.size p.
Proof. induction p; simpl; congruence. Qed.

Lemma digits2_upper (p : positive) : Zpos p < 2 ^ Zpos (digits2_pos p).
Proof.
  rewrite digits2_pos_size. generalize (Pos.size_gt p).
  rewrite <- Pos2Z.inj_pow. lia.
Qed.

Lemma digits2_lower (p : positive) : 2 ^ (Zpos (digits2_pos p) - 1) <= Zpos p.
Proof.
  rewrite digits2_pos_size. generalize (Pos.size_le p). intros H.
  assert (H' : 2 ^ Zpos (Pos.size p) <= 2 * Zpos p).
  { rewrite <- Pos2Z.inj_pow. lia. }
  replace (Zpos (Pos.size p)) with (1 + (Zpos (Pos.size p) - 1)) in H' by lia.
  rewrite Z.pow_add_r in H' by lia. lia.
Qed.

Lemma digits2_shift (p d : positive) :
  digits2_pos (Pos.iter xO p d) = (digits2_pos p + d)%positive.
Proof.
  induction d using Pos.peano_ind.
  - simpl. lia.
  - rewrite Pos.iter_succ. simpl. rewrite IHd. lia.
Qed.

Lemma iter_xO_mul (p d : positive) :
  Zpos (Pos.iter xO p d) = Zpos p * 2 ^ Zpos d.
Proof.
  induction d using Pos.peano_ind.
  - simpl. lia.
  - rewrite Pos.iter_succ, Pos2Z.inj_xO, IHd, Pos2Z.inj_succ, Z.pow_succ_r by lia. lia.
Qed.

Lemma val_le_m (m m' e : Z) : m <= m' -> val m e <= val m' e.
Proof. intros H. unfold val. apply Z.mul_le_mono_nonneg_r; [apply Z.pow_nonneg; lia | exact H]. Qed.

Lemma val_shift (m e k : Z) : 0 <= k -> -2200 <= e -> val (m * 2 ^ k) e = val m (e + k).
Proof.
  intros Hk He. unfold val.
  replace (e + k + 2200) with (k + (e + 2200)) by lia.
  rewrite (Z.pow_add_r 2 k (e + 2200)) by lia. ring.
Qed.

Lemma val_le_e (m e e' : Z) : 0 <= m -> e <= e' -> val m e <= val m e'.
Proof.
  intros Hm He. unfold val. apply Z.mul_le_mono_nonneg_l; [exact Hm|].
  destruct (Z.le_gt_cases 0 (e + 2200)).
  - apply Z.pow_le_mono_r; lia.
  - rewrite (Z.pow_neg_r 2 (e + 2200)) by lia. apply Z.pow_nonneg. lia.
Qed.

Lemma val_inv_m (m m' e : Z) : -2200 <= e -> val m e <= val m' e -> m <= m'.
Proof.
  unfold val. intros He H.
  apply Z.mul_le_mono_pos_r in H; [exact H | apply Z.pow_pos_nonneg; lia].
Qed.

Lemma val_add (m m' e : Z) : val (m + m') e = val m e + val m' e.
Proof. unfold val. ring. Qed.

(** *** Shifting right *)

Lemma shr_1_m (r : shr_record) : 0 <= shr_m r -> shr_m (shr_1 r) = shr_m r / 2.
Proof.
  destruct r as [m b s]. simpl. intros Hm.
  destruct m as [|[p|p|]|p]; simpl; try lia; rewrite <- Z.div2_div; reflexivity.
Qed.

Lemma iter_shr_1_m (p : positive) : forall r : shr_record,
  0 <= shr_m r -> shr_m (SpecFloat.iter_pos shr_1 p r) = shr_m r / 2 ^ Zpos p.
Proof.
  assert (Hpos : forall q, 0 < 2 ^ Zpos q) by (intros; apply Z.pow_pos_nonneg; lia).
  induction p as [p IH|p IH|]; intros r Hr; simpl SpecFloat.iter_pos.
  - assert (H1 : 0 <= shr_m (shr_1 r)) by (rewrite shr_1_m by exact Hr; apply Z.div_pos; lia).
    assert (H2 : 0 <= shr_m (SpecFloat.iter_pos shr_1 p (shr_1 r))).
    { rewrite IH by exact H1. apply Z.div_pos; [exact H1 | apply Hpos]. }
    rewrite IH, IH, shr_1_m by assumption.
    rewrite !Z.div_div by (try lia; try apply Hpos; specialize (Hpos p); lia).
    f_equal. transitivity (2 ^ (1 + (Zpos p + Zpos p))); [|f_equal; lia].
    rewrite (Z.pow_add_r 2 1), (Z.pow_add_r 2 (Zpos p)) by lia. reflexivity.
  - assert (H2 : 0 <= shr_m (SpecFloat.iter_pos shr_1 p r)).
    { rewrite IH by exact Hr. apply Z.div_pos; [exact Hr | apply Hpos]. }
    rewrite IH, IH by assumption.
    rewrite !Z.div_div by (try lia; try apply Hpos; specialize (Hpos p); lia).
    f_equal. rewrite <- !Z.pow_add_r by lia. f_equal. lia.
  - rewrite shr_1_m by exact Hr. reflexivity.
Qed.

Lemma shr_spec (r r' : shr_record) (e e' n : Z) :
  0 <= shr_m r -> shr r e n = (r', e') ->
  shr_m r' = shr_m r / 2 ^ Z.max 0 n /\ e' = e + Z.max 0 n.
Proof.
  intros Hr. unfold shr. destruct n as [|p|p]; intros [= <- <-].
  - simpl. rewrite Z.div_1_r. lia.
  - rewrite iter_shr_1_m by exact Hr. split; [f_equal|]; lia.
  - simpl. rewrite Z.div_1_r. lia.
Qed.

Lemma shr_record_of_loc_m (m : Z) (l : location) : shr_m (shr_record_of_loc m l) = m.
Proof. destruct l as [|[]]; reflexivity. Qed.

Lemma shr_fexp_val (m e : Z) (l : location) (r : shr_record) (e1 : Z) :
  0 <= m -> -2200 <= e ->
  shr_fexp prec emax m e l = (r, e1) ->
  0 <= shr_m r /\ e1 = Z.max e (fexp prec emax (Zdigits2 m + e)) /\
  val (shr_m r) e1 <= val m e /\ val m e < val (shr_m r + 1) e1.
Proof.
  intros Hm He. unfold shr_fexp. intros H.
  apply shr_spec in H; [|rewrite shr_record_of_loc_m; exact Hm].
  rewrite shr_record_of_loc_m in H. destruct H as [Hr ->].
  set (k := Z.max 0 (fexp prec emax (Zdigits2 m + e) - e)) in *.
  assert (Hk : 0 <= k) by lia.
  assert (Hp : 0 < 2 ^ k) by (apply Z.pow_pos_nonneg; lia).
  split; [rewrite Hr; apply Z.div_pos; lia|].
  split; [lia|].
  rewrite <- !val_shift by lia. rewrite Hr.
  pose proof (Z.mul_div_le m (2 ^ k) Hp).
  pose proof (Z.mul_succ_div_gt m (2 ^ k) Hp).
  split.
  - apply val_le_m. lia.
  - unfold val. apply Z.mul_lt_mono_pos_r; [apply Z.pow_pos_nonneg; lia | lia].
Qed.

Lemma round_nearest_even_bounds (m : Z) (l : location) :
  m <= round_nearest_even m l <= m + 1.
Proof. destruct l as [|[]]; simpl; try destruct (Z.even m); lia. Qed.

(** *** Canonical mantissas *)

Lemma bounded_inv (m : positive) (e : Z) :
  bounded prec emax m e = true ->
  e = Z.max (Zpos (digits2_pos m) + e - 53) (-1074) /\ e <= 971.
Proof.
  unfold bounded, canonical_mantissa. rewrite fexp_eq.
  intros H. apply andb_true_iff in H. destruct H as [H1 H2].
  apply Z.eqb_eq in H1. apply Z.leb_le in H2.
  change (emax - prec) with 971 in H2. lia.
Qed.

Lemma pow2_val (a e : Z) : 0 <= a -> -2200 <= e -> val (2 ^ a) e = 2 ^ (a + e + 2200).
Proof.
  intros Ha He. unfold val. rewrite <- Z.pow_add_r by lia. f_equal. lia.
Qed.

Lemma pow2_le (a b : Z) : 0 <= a -> a <= b -> 2 ^ a <= 2 ^ b.
Proof. intros. apply Z.pow_le_mono_r; lia. Qed.

Lemma pow2_lt_inv (a b : Z) : 0 <= a -> 0 <= b -> 2 ^ a < 2 ^ b -> a < b.
Proof. intros Ha Hb H. apply Z.pow_lt_mono_r_iff in H; lia. Qed.

Lemma val_digits_lower (p : positive) (e : Z) :
  -2200 <= e -> 2 ^ (Zpos (digits2_pos p) - 1 + e + 2200) <= val (Zpos p) e.
Proof.
  intros He. rewrite <- pow2_val by lia. apply val_le_m, digits2_lower.
Qed.

Lemma val_digits_upper (p : positive) (e : Z) :
  -2200 <= e -> val (Zpos p) e < 2 ^ (Zpos (digits2_pos p) + e + 2200).
Proof.
  intros He. rewrite <- pow2_val by lia. unfold val.
  apply Z.mul_lt_mono_pos_r; [apply Z.pow_pos_nonneg; lia | apply digits2_upper].
Qed.

(** On canonical mantissas the order of values is the order of keys. *)
Lemma canonical_le (m1 m2 : positive) (e1 e2 : Z) :
  bounded prec emax m1 e1 = true -> bounded prec emax m2 e2 = true ->
  val (Zpos m1) e1 <= val (Zpos m2) e2 ->
  e1 < e2 \/ (e1 = e2 /\ Zpos m1 <= Zpos m2).
Proof.
  intros B1 B2 H. apply bounded_inv in B1, B2.
  destruct (Z.lt_trichotomy e1 e2) as [Hlt|[Heq|Hgt]]; [left; exact Hlt| |].
  - right. split; [exact Heq|]. subst e2. apply val_inv_m with e1; [lia | exact H].
  - exfalso.
    pose proof (val_digits_lower m1 e1 ltac:(lia)) as L1.
    pose proof (val_digits_upper m2 e2 ltac:(lia)) as U2.
    assert (2 ^ (Zpos (digits2_pos m2) + e2 + 2200)
            <= 2 ^ (Zpos (digits2_pos m1) - 1 + e1 + 2200)) by (apply pow2_le; lia).
    lia.
Qed.

(** *** Truncation keeps every canonical lower bound *)

Lemma shr_fexp_lower (m e : Z) (l : location) (r : shr_record) (e1 : Z)
    (ms : positive) (es : Z) :
  0 <= m -> -2200 <= e ->
  shr_fexp prec emax m e l = (r, e1) ->
  bounded prec emax ms es = true ->
  val (Zpos ms) es <= val m e ->
  val (Zpos ms) es <= val (shr_m r) e1.
Proof.
  intros Hm He Hs Bs Hle.
  destruct (shr_fexp_val m e l r e1 Hm He Hs) as (Hr & He1 & Hlo & Hhi).
  apply bounded_inv in Bs.
  destruct (Z.le_gt_cases e1 es) as [Hes|Hes].
  - (* the bound lies on the grid of the result *)
    replace es with (e1 + (es - e1)) in Hle |- * by lia.
    rewrite <- val_shift in Hle |- * by lia.
    apply val_le_m.
    assert (Hlt : val (Zpos ms * 2 ^ (es - e1)) e1 < val (shr_m r + 1) e1) by lia.
    unfold val in Hlt. apply Z.mul_lt_mono_pos_r in Hlt; [lia | apply Z.pow_pos_nonneg; lia].
  - (* the result keeps 53 digits, above everything with a smaller exponent *)
    destruct m as [|p|p]; [| |lia].
    + assert (0 < val (Zpos ms) es)
        by (unfold val; apply Z.mul_pos_pos; [lia | apply Z.pow_pos_nonneg; lia]).
      change (val 0 e) with 0 in Hle. lia.
    + simpl Zdigits2 in He1. rewrite fexp_eq in He1.
      destruct (Z.le_gt_cases e1 e) as [Hee|Hee].
      { (* no shift at all *)
        assert (E : e1 = e) by lia. rewrite E in Hhi |- *.
        assert (Zpos p < shr_m r + 1).
        { unfold val in Hhi. apply Z.mul_lt_mono_pos_r in Hhi; [lia | apply Z.pow_pos_nonneg; lia]. }
        apply Z.le_trans with (val (Zpos p) e); [exact Hle | apply val_le_m; lia]. }
      pose proof (val_digits_lower p e He) as Lp.
      pose proof (val_digits_upper ms es ltac:(lia)) as Us.
      (* 2^(d-1+e) <= val p e < val (m1+1) e1, so 2^52 <= m1 *)
      assert (E1 : e1 = Zpos (digits2_pos p) + e - 53) by lia.
      assert (H52 : 2 ^ 52 < shr_m r + 1).
      { assert (Hv : val (2 ^ 52) e1 < val (shr_m r + 1) e1).
        { rewrite pow2_val by lia. replace (52 + e1 + 2200) with (Zpos (digits2_pos p) - 1 + e + 2200) by lia. lia. }
        unfold val in Hv. apply Z.mul_lt_mono_pos_r in Hv; [lia | apply Z.pow_pos_nonneg; lia]. }
      assert (Hv : val (2 ^ 52) e1 <= val (shr_m r) e1) by (apply val_le_m; lia).
      rewrite pow2_val in Hv by lia.
      assert (2 ^ (Zpos (digits2_pos ms) + es + 2200) <= 2 ^ (52 + e1 + 2200)) by (apply pow2_le; lia).
      lia.
Qed.

(** *** The outcome of rounding *)

Lemma binary_round_aux_val (s : bool) (m e : Z) :
  0 <= m -> -2200 <= e ->
  exists m3 e3,
    binary_round_aux prec emax s m e loc_Exact = pack s m3 e3 /\
    0 <= m3 /\
    val m3 e3 <= val m e + val 1 (Z.max e (fexp prec emax (Zdigits2 m + e))) /\
    val m e < val m3 e3 + val 1 (Z.max e (fexp prec emax (Zdigits2 m + e)))
              + val 1 e3 /\
    forall (ms : positive) (es : Z),
      bounded prec emax ms es = true ->
      val (Zpos ms) es <= val m e -> val (Zpos ms) es <= val m3 e3.
Proof.
  intros Hm He. unfold binary_round_aux.
  destruct (shr_fexp prec emax m e loc_Exact) as [r1 e1] eqn:S1.
  destruct (shr_fexp_val _ _ _ _ _ Hm He S1) as (Hr1 & He1 & Hlo1 & Hhi1).
  pose proof (round_nearest_even_bounds (shr_m r1) (loc_of_shr_record r1)) as Hrne.
  set (m2 := round_nearest_even (shr_m r1) (loc_of_shr_record r1)) in *.
  destruct (shr_fexp prec emax m2 e1 loc_Exact) as [r3 e3] eqn:S3.
  assert (Hm2 : 0 <= m2) by lia.
  assert (He1' : -2200 <= e1) by lia.
  destruct (shr_fexp_val _ _ _ _ _ Hm2 He1' S3) as (Hr3 & He3 & Hlo3 & Hhi3).
  exists (shr_m r3), e3. split; [reflexivity|]. split; [exact Hr3|].
  rewrite <- He1. split; [|split].
  - assert (val m2 e1 <= val (shr_m r1 + 1) e1) by (apply val_le_m; lia).
    rewrite val_add in H. lia.
  - assert (val (shr_m r1) e1 <= val m2 e1) by (apply val_le_m; lia).
    rewrite val_add in Hhi1, Hhi3. lia.
  - intros ms es Bs Hle.
    eapply shr_fexp_lower; [exact Hm2 | exact He1' | exact S3 | exact Bs |].
    apply Z.le_trans with (val (shr_m r1) e1); [|apply val_le_m; lia].
    eapply shr_fexp_lower; [exact Hm | exact He | exact S1 | exact Bs | exact Hle].
Qed.

(** *** Alignment and the rounding of sums *)

Lemma shl_align_val (mx : positive) (ex e' : Z) :
  -2200 <= ex -> -2200 <= e' ->
  snd (shl_align mx ex e') = Z.min ex e' /\
  val (Zpos (fst (shl_align mx ex e'))) (snd (shl_align mx ex e')) = val (Zpos mx) ex /\
  Zpos (digits2_pos (fst (shl_align mx ex e'))) + snd (shl_align mx ex e')
  = Zpos (digits2_pos mx) + ex.
Proof.
  intros Hx He. unfold shl_align.
  destruct (e' - ex) as [|d|d] eqn:E; simpl fst; simpl snd;
    [repeat split; lia | repeat split; lia |].
  split; [lia|]. split.
  - rewrite iter_xO_mul, val_shift by lia. f_equal. lia.
  - rewrite digits2_shift. lia.
Qed.

Lemma binary_round_val (s : bool) (mx : positive) (ex : Z) :
  -2200 <= ex ->
  exists m3 e3,
    binary_round prec emax s mx ex = pack s m3 e3 /\
    0 <= m3 /\
    val m3 e3 <= val (Zpos mx) ex
                 + val 1 (fexp prec emax (Zpos (digits2_pos mx) + ex)) /\
    forall (ms : positive) (es : Z),
      bounded prec emax ms es = true ->
      val (Zpos ms) es <= val (Zpos mx) ex -> val (Zpos ms) es <= val m3 e3.
Proof.
  intros Hx. unfold binary_round.
  set (f := fexp prec emax (Zpos (digits2_pos mx) + ex)).
  assert (Hf : -1074 <= f) by (unfold f; rewrite fexp_eq; lia).
  destruct (shl_align_val mx ex f Hx ltac:(lia)) as (E1 & E2 & E3).
  destruct (shl_align mx ex f) as [mz ez]. simpl fst in *; simpl snd in *.
  destruct (binary_round_aux_val s (Zpos mz) ez ltac:(lia) ltac:(lia))
    as (m3 & e3 & Hr & Hm3 & Hup & _ & Hlow).
  exists m3, e3. split; [exact Hr|]. split; [exact Hm3|].
  simpl Zdigits2 in Hup. rewrite E3, E2 in Hup. fold f in Hup.
  replace (Z.max ez f) with f in Hup by lia.
  split; [exact Hup|].
  intros ms es Bs Hle. apply Hlow; [exact Bs | rewrite E2; exact Hle].
Qed.

Lemma Prim2SF_bounded (x : float) (s : bool) (m : positive) (e : Z) :
  Prim2SF x = S754_finite s m e -> bounded prec emax m e = true.
Proof.
  intros H. generalize (Prim2SF_valid x). rewrite H. simpl. exact (fun h => h).
Qed.

(** *** Signs *)

Lemma le_0_nonneg (x : float) : le 0 x <-> nonneg (Prim2SF x).
Proof.
  rewrite le_key. change (Prim2SF 0) with (S754_zero false).
  destruct (Prim2SF x) as [s|s| |s m e]; simpl;
    try destruct s; simpl; intuition (try discriminate; try lia).
Qed.

Lemma pack_nonneg (m e : Z) : 0 <= m -> nonneg (pack false m e).
Proof.
  intros Hm. destruct m as [|p|p]; [exact I | | lia].
  unfold pack. destruct (e <=? emax - prec); reflexivity.
Qed.

Lemma pack_nonpos (m e : Z) : 0 <= m -> nonpos (pack true m e).
Proof.
  intros Hm. destruct m as [|p|p]; [exact I | | lia].
  unfold pack. destruct (e <=? emax - prec); reflexivity.
Qed.

Lemma bounded_emin (m : positive) (e : Z) :
  bounded prec emax m e = true -> -1074 <= e <= 971.
Proof. intros H. apply bounded_inv in H. lia. Qed.

(** The sum of two non-negative doubles is non-negative (and not NaN). *)
Lemma add_nonneg (x y : float) : le 0 x -> le 0 y -> le 0 (x + y)%float.
Proof.
  rewrite !le_0_nonneg, add_spec.
  pose proof (Prim2SF_valid x) as Vx. pose proof (Prim2SF_valid y) as Vy.
  destruct (Prim2SF x) as [sx|sx| |sx mx ex], (Prim2SF y) as [sy|sy| |sy my ey];
    simpl; intros Hx Hy; subst; try exact I; try reflexivity; try contradiction.
  - destruct sx, sy; exact I.
  - apply bounded_emin in Vx, Vy.
    unfold SF64add, SFadd, cond_Zopp, binary_normalize.
    change (Zpos ?a + Zpos ?b) with (Zpos (a + b)); cbv iota.
    destruct (binary_round_val false
                (fst (shl_align mx ex (Z.min ex ey)) + fst (shl_align my ey (Z.min ex ey)))
                (Z.min ex ey) ltac:(lia)) as (m3 & e3 & Hr & Hm3 & _).
    rewrite Hr. apply pack_nonneg, Hm3.
Qed.

(** *** Products with a positive finite constant *)

Lemma val_pos (p : positive) (e : Z) : -2200 <= e -> 0 < val (Zpos p) e.
Proof. intros He. unfold val. apply Z.mul_pos_pos; [lia | apply Z.pow_pos_nonneg; lia]. Qed.

Lemma mul_nonneg (x c : float) (mc : positive) (ec : Z) :
  Prim2SF c = S754_finite false mc ec ->
  le 0 x -> le 0 (x * c)%float.
Proof.
  intros Hc. rewrite !le_0_nonneg, mul_spec, Hc.
  pose proof (Prim2SF_valid x) as Vx.
  pose proof (Prim2SF_bounded c _ _ _ Hc) as Vc.
  destruct (Prim2SF x) as [sx|sx| |sx mx ex]; simpl; intros Hx; subst;
    try exact I; try reflexivity; try contradiction.
  apply bounded_emin in Vx, Vc.
  destruct (binary_round_aux_val false (Zpos (mx * mc)) (ex + ec) ltac:(lia) ltac:(lia))
    as (m3 & e3 & Hr & Hm3 & _).
  unfold SF64mul, SFmul. simpl xorb. rewrite Hr. apply pack_nonneg, Hm3.
Qed.

(** Multiplying a non-negative double by a constant in [1, 2) does not
    make it smaller. *)
Lemma mul_ge_self (x c : float) (mc : positive) :
  Prim2SF c = S754_finite false mc (-52) -> 2 ^ 52 <= Zpos mc ->
  le 0 x -> le x (x * c)%float.
Proof.
  intros Hc Hmc. rewrite le_0_nonneg, le_key.
  pose proof (Prim2SF_valid (x * c)) as Vr. revert Vr.
  rewrite mul_spec, Hc.
  pose proof (Prim2SF_valid x) as Vx.
  destruct (Prim2SF x) as [sx|sx| |sx mx ex]; simpl nonneg; intros Vr Hx; subst;
    try contradiction.
  - simpl. repeat split; lia.
  - simpl. repeat split; lia.
  - simpl in Vx. pose proof (bounded_emin _ _ Vx) as Ex.
    destruct (binary_round_aux_val false (Zpos (mx * mc)) (ex + -52) ltac:(lia) ltac:(lia))
      as (m3 & e3 & Hr & Hm3 & _ & _ & Hlow).
    unfold SF64mul, SFmul in Vr |- *. simpl xorb in Vr |- *. rewrite Hr in Vr |- *.
    assert (Hv : val (Zpos mx) ex <= val m3 e3).
    { apply Hlow; [exact Vx|].
      replace ex with (ex + -52 + 52) at 1 by lia.
      rewrite <- val_shift by lia. apply val_le_m.
      rewrite Pos2Z.inj_mul. apply Z.mul_le_mono_nonneg_l; lia. }
    pose proof (val_pos mx ex ltac:(lia)) as Hp.
    destruct m3 as [|q|q]; [change (val 0 e3) with 0 in Hv; lia | | lia].
    unfold pack in Vr |- *. destruct (e3 <=? emax - prec).
    + simpl in Vr. destruct (canonical_le _ _ _ _ Vx Vr Hv) as [H|[H1 H2]];
        simpl; repeat split; lia.
    + simpl. repeat split; lia.
Qed.

(** *** Slowing down from at most 120 stays at most 120 *)

Lemma val_const (n k : Z) : 0 <= k -> k <= 2200 -> val (n * 2 ^ k) (- k) = val n 0.
Proof. intros H1 H2. rewrite val_shift by lia. f_equal. lia. Qed.

Lemma le_120_val (mx : positive) (ex : Z) :
  bounded prec emax mx ex = true ->
  key_le (1, ex, Zpos mx) (1, -46, 8444249301319680) ->
  ex <= -46 /\ val (Zpos mx) ex <= val 120 0.
Proof.
  intros Vx Hx.
  assert (C120 : val 8444249301319680 (-46) = val 120 0) by (apply (val_const 120 46); lia).
  pose proof (bounded_emin _ _ Vx) as Ex.
  cbv [key_le] in Hx. split; [lia|].
  rewrite <- C120.
  destruct Hx as [Hx|[_ [Hx|[-> Hx]]]]; [lia| |apply val_le_m; lia].
  pose proof (val_digits_upper mx ex ltac:(lia)) as Ux.
  apply bounded_inv in Vx.
  assert (2 ^ (Zpos (digits2_pos mx) + ex + 2200) <= 2 ^ (6 + 0 + 2200)) by (apply pow2_le; lia).
  rewrite C120. assert (val (2 ^ 6) 0 <= val 120 0) by (apply val_le_m; lia).
  rewrite pow2_val in H0 by lia. lia.
Qed.

Lemma sub_5_le_120 (x : float) : le x 120 -> le (x - 5)%float 120.
Proof.
  rewrite !le_key.
  pose proof (Prim2SF_valid (x - 5)) as Vr. revert Vr. rewrite sub_spec.
  change (Prim2SF 5) with (S754_finite false 5629499534213120 (-50)).
  change (Prim2SF 120) with (S754_finite false 8444249301319680 (-46)).
  pose proof (Prim2SF_valid x) as Vx.
  assert (V120 : bounded prec emax 8444249301319680 (-46) = true) by reflexivity.
  assert (C120 : val 8444249301319680 (-46) = val 120 0) by (apply (val_const 120 46); lia).
  assert (C5 : val 5629499534213120 (-50) = val 5 0) by (apply (val_const 5 50); lia).
  assert (U : 0 < val 1 0) by (apply val_pos; lia).
  destruct (Prim2SF x) as [sx|sx| |sx mx ex]; intros Vr (Nx & _ & Hx);
    try discriminate.
  - keys.
  - destruct sx; keys.
  - simpl in Vx. pose proof (bounded_emin _ _ Vx) as Ex.
    unfold SF64sub, SFsub, binary_normalize in Vr |- *.
    set (ez := Z.min ex (-50)) in *.
    destruct (shl_align_val mx ex ez ltac:(lia) ltac:(lia)) as (Sx & Ax & _).
    destruct (shl_align_val 5629499534213120 (-50) ez ltac:(lia) ltac:(lia)) as (S5 & A5 & _).
    replace (snd (shl_align mx ex ez)) with ez in Ax by lia.
    replace (snd (shl_align 5629499534213120 (-50) ez)) with ez in A5 by lia.
    set (a := fst (shl_align mx ex ez)) in *.
    set (b := fst (shl_align 5629499534213120 (-50) ez)) in *.
    destruct sx; unfold cond_Zopp in Vr |- *.
    + (* a negative double: the difference is negative *)
      change (- Zpos a - Zpos b) with (Zneg (a + b)) in Vr |- *. cbv iota in Vr |- *.
      destruct (binary_round_val true (a + b) ez ltac:(lia)) as (m3 & e3 & Hr & Hm3 & _).
      rewrite Hr. pose proof (pack_nonpos m3 e3 Hm3) as Hs.
      destruct (pack true m3 e3) as [s|s| |s m e]; simpl in Hs; subst;
        try contradiction; keys.
    + destruct (Zpos a - Zpos b) as [|p|p] eqn:D.
      * keys.
      * destruct (binary_round_val false p ez ltac:(lia)) as (m3 & e3 & Hr & Hm3 & Hup & _).
        rewrite Hr in Vr |- *.
        assert (Hx120 : val (Zpos mx) ex <= val 120 0)
          by (apply le_120_val; [exact Vx | exact Hx]).
        assert (Hp : val (Zpos p) ez <= val 115 0).
        { rewrite <- D. unfold val in *. lia. }
        assert (Hd : Zpos (digits2_pos p) + ez <= 7).
        { pose proof (val_digits_lower p ez ltac:(lia)) as Lp.
          assert (val 115 0 < val (2 ^ 7) 0) by (unfold val; lia).
          rewrite pow2_val in H by lia.
          assert (2 ^ (Zpos (digits2_pos p) - 1 + ez + 2200) < 2 ^ (7 + 0 + 2200)) by lia.
          apply pow2_lt_inv in H0; lia. }
        assert (Hu : val 1 (fexp prec emax (Zpos (digits2_pos p) + ez)) <= val 1 0).
        { apply val_le_e; [lia | rewrite fexp_eq; lia]. }
        assert (Hv : val m3 e3 <= val 120 0) by (unfold val in *; lia).
        destruct m3 as [|q|q]; [keys | | lia].
        unfold pack in Vr |- *. destruct (e3 <=? emax - prec) eqn:E3.
        -- simpl in Vr. rewrite <- C120 in Hv.
           destruct (canonical_le _ _ _ _ Vr V120 Hv) as [H|[H1 H2]];
             keys.
        -- exfalso. apply Z.leb_gt in E3. change (emax - prec) with 971 in E3.
           assert (val 1 e3 <= val (Zpos q) e3) by (apply val_le_m; lia).
           assert (val (2 ^ 7) 0 <= val 1 e3).
           { apply Z.le_trans with (val 1 7); [|apply val_le_e; lia].
             apply Z.eq_le_incl. exact (val_shift 1 0 7 ltac:(lia) ltac:(lia)). }
           assert (val 120 0 < val (2 ^ 7) 0) by (unfold val; lia).
           lia.
      * destruct (binary_round_val true p ez ltac:(lia)) as (m3 & e3 & Hr & Hm3 & _).
        rewrite Hr. pose proof (pack_nonpos m3 e3 Hm3) as Hs.
        destruct (pack true m3 e3) as [s|s| |s m e]; simpl in Hs; subst;
          try contradiction; keys.
Qed.

(** ** The accuracy of the safe-distance product *)

Lemma val_scale (a m e : Z) : val (a * m) e = a * val m e.
Proof. unfold val. ring. Qed.

(** For a double x in [0, 120], x * (5.0 / 9.0) is within 10^-6 of five
    ninths of x. *)
Lemma mul_five_ninths_accuracy (x : float) :
  le 0 x -> le x 120 ->
  exists v r : Z,
    exact_value (Prim2SF x) = Some v /\
    exact_value (Prim2SF (x * (5 / 9))%float) = Some r /\
    Z.abs (9 * r - 5 * v) * 1000000 <= 9 * val 1 0.
Proof.
  rewrite le_0_nonneg, le_key.
  pose proof (Prim2SF_valid (x * (5 / 9))) as Vr. revert Vr. rewrite mul_spec.
  change (Prim2SF (5 / 9)) with (S754_finite false 5003999585967218 (-53)).
  change (Prim2SF 120) with (S754_finite false 8444249301319680 (-46)).
  pose proof (Prim2SF_valid x) as Vx.
  assert (U : 0 < val 1 0) by (apply val_pos; lia).
  destruct (Prim2SF x) as [sx|sx| |sx mx ex]; simpl nonneg;
    intros Vr Hs (_ & _ & Hx); subst; try contradiction.
  - exists 0, 0. simpl. repeat split. lia.
  - exfalso. cbv [key key_le] in Hx. lia.
  - simpl in Vx. cbv [key] in Hx.
    destruct (le_120_val mx ex Vx Hx) as [Ex46 Hx120].
    pose proof (bounded_emin _ _ Vx) as Ex.
    set (mc := 5003999585967218%positive) in *.
    destruct (binary_round_aux_val false (Zpos (mx * mc)) (ex + -53) ltac:(lia) ltac:(lia))
      as (m3 & e3 & Hr & Hm3 & Hup & Herr & Hlow).
    unfold SF64mul, SFmul in Vr |- *. simpl xorb in Vr |- *. rewrite Hr in Vr |- *.
    set (V := val (Zpos (mx * mc)) (ex + -53)) in *.
    set (vx := val (Zpos mx) ex) in *.
    (* the exact product against the exact factor *)
    assert (HV : V * 2 ^ 53 = vx * Zpos mc).
    { unfold V, vx, val. rewrite Pos2Z.inj_mul.
      replace (ex + 2200) with (53 + (ex + -53 + 2200)) by lia.
      rewrite (Z.pow_add_r 2 53) by lia. ring. }
    assert (Hvx : 0 < vx) by (apply val_pos; lia).
    (* the exponent the product is rounded at *)
    set (e1 := Z.max (ex + -53) (fexp prec emax (Zdigits2 (Zpos (mx * mc)) + (ex + -53)))) in *.
    assert (HV128 : V < val (2 ^ 7) 0).
    { assert (val 120 0 < val (2 ^ 7) 0) by (unfold val; lia).
      assert (Zpos mc < 2 ^ 53) by (vm_compute; reflexivity).
      nia. }
    assert (He1 : e1 <= -46).
    { pose proof (val_digits_lower (mx * mc) (ex + -53) ltac:(lia)) as Lp.
      fold V in Lp. rewrite pow2_val in HV128 by lia.
      assert (Hlt : 2 ^ (Zpos (digits2_pos (mx * mc)) - 1 + (ex + -53) + 2200) < 2 ^ (7 + 0 + 2200)) by lia.
      apply pow2_lt_inv in Hlt; [|lia|lia].
      unfold e1. simpl Zdigits2. rewrite fexp_eq. lia. }
    assert (HA : val 1 e1 <= val 1 (-46)) by (apply val_le_e; lia).
    assert (A46 : 2 ^ 46 * val 1 (-46) = val 1 0).
    { rewrite <- val_scale. exact (val_const 1 46 ltac:(lia) ltac:(lia)). }
    assert (A45 : 2 ^ 45 * val 1 (-45) = val 1 0).
    { rewrite <- val_scale. exact (val_const 1 45 ltac:(lia) ltac:(lia)). }
    assert (A1074 : 2 ^ 1074 * val 1 (-1074) = val 1 0).
    { rewrite <- val_scale. exact (val_const 1 1074 ltac:(lia) ltac:(lia)). }
    assert (C120 : val 120 0 = 120 * val 1 0) by (rewrite <- val_scale; reflexivity).
    assert (C128 : val (2 ^ 7) 0 = 128 * val 1 0) by (rewrite <- val_scale; reflexivity).
    exists vx. destruct m3 as [|q|q]; [| |lia].
    + (* the product underflows to zero: it was below the least double *)
      exists 0. split; [reflexivity|]. split; [reflexivity|].
      assert (Hsmall : V < val 1 (-1074)).
      { destruct (Z.lt_ge_cases V (val 1 (-1074))) as [H|H]; [exact H|].
        specialize (Hlow 1%positive (-1074) eq_refl H).
        change (val 0 e3) with 0 in Hlow.
        pose proof (val_pos 1 (-1074) ltac:(lia)). lia. }
      assert (P1074 : 2 ^ 60 <= 2 ^ 1074) by (apply pow2_le; lia).
      assert (0 < val 1 (-1074)) by (apply val_pos; lia).
      change (2 ^ 53) with 9007199254740992 in HV.
      change (2 ^ 60) with 1152921504606846976 in P1074.
      unfold mc in HV. nia.
    + assert (Hq128 : val (Zpos q) e3 < val (2 ^ 7) 0).
      { change (2 ^ 53) with 9007199254740992 in HV.
        change (2 ^ 46) with 70368744177664 in A46. unfold mc in HV. lia. }
      unfold pack in Vr |- *. destruct (e3 <=? emax - prec) eqn:E3.
      * exists (val (Zpos q) e3). split; [reflexivity|]. split; [reflexivity|].
        simpl in Vr.
        assert (C52 : val 4503599627370496 (-45) = val (2 ^ 7) 0)
          by exact (val_const 128 45 ltac:(lia) ltac:(lia)).
        assert (He3 : e3 <= -45).
        { destruct (canonical_le q 4503599627370496 e3 (-45) Vr eq_refl) as [H|[H _]]; lia. }
        assert (HB : val 1 e3 <= val 1 (-45)) by (apply val_le_e; lia).
        change (2 ^ 53) with 9007199254740992 in HV.
        change (2 ^ 46) with 70368744177664 in A46.
        change (2 ^ 45) with 35184372088832 in A45.
        unfold mc in HV. lia.
      * exfalso. apply Z.leb_gt in E3. change (emax - prec) with 971 in E3.
        assert (val 1 e3 <= val (Zpos q) e3) by (apply val_le_m; lia).
        assert (val (2 ^ 7) 0 <= val 1 e3).
        { apply Z.le_trans with (val 1 7); [|apply val_le_e; lia].
          apply Z.eq_le_incl. exact (val_shift 1 0 7 ltac:(lia) ltac:(lia)). }
        lia.
Qed.

(** ** Commutation, and equality with zero *)

Lemma mul_comm (x y : float) : (x * y)%float = (y * x)%float.
Proof.
  apply Prim2SF_inj. rewrite !mul_spec. unfold SF64mul, SFmul.
  destruct (Prim2SF x) as [sx|sx| |sx mx ex], (Prim2SF y) as [sy|sy| |sy my ey];
    try reflexivity; try (rewrite (xorb_comm sx sy); reflexivity).
  rewrite (xorb_comm sx sy), (Pos.mul_comm mx my), (Z.add_comm ex ey).
  reflexivity.
Qed.

Lemma eqb_zero (x : float) :
  (x =? 0)%float = true <-> exists s, Prim2SF x = S754_zero s.
Proof.
  rewrite eqb_spec. change (Prim2SF 0) with (S754_zero false).
  destruct (Prim2SF x) as [s|s| |s m e]; unfold SFeqb; simpl; split;
    try (intros [s' H]; discriminate H); try discriminate;
    try (destruct s; discriminate).
  - intros _. exists s. reflexivity.
  - intros _. reflexivity.
Qed.

Lemma mul_zero (x c : float) (sc : bool) (mc : positive) (ec : Z) :
  Prim2SF c = S754_finite sc mc ec ->
  (x =? 0)%float = true -> ((x * c) =? 0)%float = true.
Proof.
  intros Hc. rewrite !eqb_zero, mul_spec, Hc. intros [s ->].
  exists (xorb s sc). reflexivity.
Qed.

End B64Facts.

(** * Rounding to nearest even is monotone *)

Module B64RoundFacts.

Import B64 B64Round B64Facts.
Local Open Scope Z_scope.

Lemma binary_round_aux_core (s : bool) (m e : Z) :
  binary_round_aux prec emax s m e loc_Exact
  = pack s (fst (round_core m e)) (snd (round_core m e)).
Proof.
  unfold binary_round_aux, round_core, round_grid.
  destruct (shr_fexp prec emax m e loc_Exact) as [r1 e1].
  destruct (shr_fexp prec emax _ e1 loc_Exact) as [r3 e3].
  reflexivity.
Qed.

Lemma shr_inv_start (m0 : Z) :
  0 <= m0 -> shr_inv m0 0 (shr_record_of_loc m0 loc_Exact).
Proof.
  intros H. unfold shr_inv. simpl. split; [exact H|].
  replace (m0 - m0 * 1) with 0 by lia. split; [lia|]. split; [discriminate | lia].
Qed.

Lemma shr_inv_step (m0 k : Z) (r : shr_record) :
  0 <= k -> shr_inv m0 k r -> shr_inv m0 (k + 1) (shr_1 r).
Proof.
  intros Hk. unfold shr_inv.
  rewrite Z.pow_add_r, Z.pow_1_r by lia.
  assert (HP : 0 < 2 ^ k) by (apply Z.pow_pos_nonneg; lia).
  set (P := 2 ^ k) in *.
  destruct r as [m b s]. simpl shr_m. simpl shr_r. simpl shr_s.
  intros (Hm & Hr & Hs).
  destruct m as [|[p|p|]|p]; try lia; simpl shr_1; simpl shr_m; simpl shr_r; simpl shr_s.
  - (* m = 0 *)
    split; [lia|]. destruct b, s; simpl orb; split; try lia; split; intros; try lia; try reflexivity; try discriminate;
      try (exfalso; intuition lia).
  - (* m = 2p+1 *)
    rewrite Pos2Z.inj_xI in Hr, Hs. set (X := Zpos p * P) in *.
    replace ((2 * Zpos p + 1) * P) with (2 * X + P) in Hr, Hs by (unfold X; ring).
    replace (Zpos p * (P * 2)) with (2 * X) by (unfold X; ring).
    split; [lia|]. destruct b, s; simpl orb; split; try lia; split; intros; try lia; try reflexivity; try discriminate;
      try (exfalso; intuition lia).
  - (* m = 2p *)
    rewrite Pos2Z.inj_xO in Hr, Hs. set (X := Zpos p * P) in *.
    replace ((2 * Zpos p) * P) with (2 * X) in Hr, Hs by (unfold X; ring).
    replace (Zpos p * (P * 2)) with (2 * X) by (unfold X; ring).
    split; [lia|]. destruct b, s; simpl orb; split; try lia; split; intros; try lia; try reflexivity; try discriminate;
      try (exfalso; intuition lia).
  - (* m = 1 *)
    split; [lia|]. destruct b, s; simpl orb; split; try lia; split; intros; try lia; try reflexivity; try discriminate;
      try (exfalso; intuition lia).
Qed.

Lemma shr_inv_iter (m0 : Z) (p : positive) : forall (k : Z) (r : shr_record),
  0 <= k -> shr_inv m0 k r ->
  shr_inv m0 (k + Zpos p) (SpecFloat.iter_pos shr_1 p r).
Proof.
  induction p as [p IH|p IH|]; intros k r Hk H; simpl SpecFloat.iter_pos.
  - replace (k + Zpos p~1) with (k + 1 + Zpos p + Zpos p) by lia.
    apply IH; [lia|]. apply IH; [lia|]. apply shr_inv_step; assumption.
  - replace (k + Zpos p~0) with (k + Zpos p + Zpos p) by lia.
    apply IH; [lia|]. apply IH; assumption.
  - apply shr_inv_step; assumption.
Qed.

(** After [shr_fexp] on an exact input the record describes the remainder
    of the division by [2 ^ k]. *)
Lemma shr_fexp_inv (m e : Z) (r : shr_record) (e1 : Z) :
  0 <= m ->
  shr_fexp prec emax m e loc_Exact = (r, e1) ->
  e1 = Z.max e (fexp prec emax (Zdigits2 m + e)) /\
  shr_inv m (e1 - e) r.
Proof.
  intros Hm. unfold shr_fexp, shr.
  destruct (fexp prec emax (Zdigits2 m + e) - e) as [|p|p] eqn:E; intros [= <- <-].
  - split; [lia|]. replace (e - e) with 0 by lia. apply shr_inv_start; exact Hm.
  - split; [lia|]. replace (e + Zpos p - e) with (0 + Zpos p) by lia.
    apply shr_inv_iter; [lia|]. apply shr_inv_start; exact Hm.
  - split; [lia|]. replace (e - e) with 0 by lia. apply shr_inv_start; exact Hm.
Qed.

(** Rounding to nearest even picks a nearest multiple of [2 ^ k], and an
    even one on a tie. *)
Lemma round_nearest_even_nearest (m0 k : Z) (r : shr_record) :
  0 <= k -> shr_inv m0 k r ->
  let m2 := round_nearest_even (shr_m r) (loc_of_shr_record r) in
  shr_m r <= m2 <= shr_m r + 1 /\
  2 * Z.abs (m2 * 2 ^ k - m0) <= 2 ^ k /\
  (2 * Z.abs (m2 * 2 ^ k - m0) = 2 ^ k -> Z.even m2 = true) /\
  (m0 = shr_m r * 2 ^ k -> m2 = shr_m r).
Proof.
  intros Hk. unfold shr_inv.
  assert (HP : 0 < 2 ^ k) by (apply Z.pow_pos_nonneg; lia).
  set (P := 2 ^ k) in *.
  destruct r as [m b s]. simpl shr_m. simpl shr_r. simpl shr_s.
  intros (Hm & Hr & Hs). set (X := m * P) in *.
  destruct b, s; simpl loc_of_shr_record; simpl round_nearest_even.
  - (* above the middle *)
    assert (2 * (m0 - X) <> P) by (apply Hs; reflexivity).
    replace ((m + 1) * P) with (X + P) by (unfold X; ring).
    repeat split; try lia.
  - (* the middle *)
    assert (E : 2 * (m0 - X) = P).
    { destruct (Z.eq_dec (2 * (m0 - X)) P) as [E|N]; [exact E|].
      apply Hs in N. discriminate. }
    destruct (Z.even m) eqn:Ev.
    + fold X. repeat split; try lia. intros _. exact Ev.
    + replace ((m + 1) * P) with (X + P) by (unfold X; ring).
      repeat split; try lia.
      intros _. rewrite Z.even_add, Ev. reflexivity.
  - (* below the middle *)
    assert (2 * (m0 - X) <> 0) by (apply Hs; reflexivity).
    fold X. repeat split; try lia.
  - (* exact *)
    assert (E : 2 * (m0 - X) = 0).
    { destruct (Z.eq_dec (2 * (m0 - X)) 0) as [E|N]; [exact E|].
      apply Hs in N. discriminate. }
    fold X. repeat split; try lia.
Qed.

Lemma val_grid (m e e1 : Z) :
  -2200 <= e -> e <= e1 -> val m e1 = m * 2 ^ (e1 - e) * 2 ^ (e + 2200).
Proof.
  intros He H1. unfold val. replace (e1 + 2200) with (e1 - e + (e + 2200)) by lia.
  rewrite Z.pow_add_r by lia. ring.
Qed.

(** The first half of the rounding: the nearest point of the target grid. *)
Lemma round_grid_spec (m e : Z) :
  0 <= m -> -2200 <= e ->
  let m2 := fst (round_grid m e) in
  let e1 := snd (round_grid m e) in
  e1 = Z.max e (fexp prec emax (Zdigits2 m + e)) /\
  0 <= m2 /\
  2 * Z.abs (val m2 e1 - val m e) <= val 1 e1 /\
  (2 * Z.abs (val m2 e1 - val m e) = val 1 e1 -> Z.even m2 = true).
Proof.
  intros Hm He. unfold round_grid.
  destruct (shr_fexp prec emax m e loc_Exact) as [r1 e1] eqn:S1. simpl fst; simpl snd.
  destruct (shr_fexp_inv m e r1 e1 Hm S1) as [E1 Hinv].
  assert (Hk : 0 <= e1 - e) by lia.
  destruct (round_nearest_even_nearest m (e1 - e) r1 Hk Hinv) as (Hb & Hn & Ht & _).
  set (m2 := round_nearest_even (shr_m r1) (loc_of_shr_record r1)) in *.
  assert (H0 : 0 <= shr_m r1) by (destruct Hinv as [H0 _]; exact H0).
  assert (HG : 0 < 2 ^ (e + 2200)) by (apply Z.pow_pos_nonneg; lia).
  split; [exact E1|]. split; [lia|].
  rewrite (val_grid m2 e e1), (val_grid 1 e e1) by lia.
  unfold val at 1 2. set (G := 2 ^ (e + 2200)) in *. set (P := 2 ^ (e1 - e)) in *.
  replace (m2 * P * G - m * G) with ((m2 * P - m) * G) by ring.
  rewrite Z.abs_mul, (Z.abs_eq G) by lia.
  replace (1 * P * G) with (P * G) by ring.
  split.
  - replace (2 * (Z.abs (m2 * P - m) * G)) with (2 * Z.abs (m2 * P - m) * G) by ring.
    apply Z.mul_le_mono_nonneg_r; lia.
  - intros H. apply Ht.
    replace (2 * (Z.abs (m2 * P - m) * G)) with (2 * Z.abs (m2 * P - m) * G) in H by ring.
    apply Z.mul_cancel_r in H; lia.
Qed.

Lemma digits_exp_le (p p' : positive) (e e' : Z) :
  -2200 <= e -> -2200 <= e' ->
  val (Zpos p) e <= val (Zpos p') e' ->
  Zpos (digits2_pos p) + e <= Zpos (digits2_pos p') + e'.
Proof.
  intros He He' H.
  pose proof (val_digits_lower p e He) as L.
  pose proof (val_digits_upper p' e' He') as U.
  assert (Hlt : 2 ^ (Zpos (digits2_pos p) - 1 + e + 2200)
                < 2 ^ (Zpos (digits2_pos p') + e' + 2200)) by lia.
  apply pow2_lt_inv in Hlt; lia.
Qed.

Lemma mul_grid_le (a b G : Z) : 0 < G -> 2 * a * G <= (2 * b + 1) * G -> a <= b.
Proof.
  intros HG H. apply Z.mul_le_mono_pos_r in H; [lia | exact HG].
Qed.

(** Rounding to the grid is monotone in the value rounded. *)
Lemma round_grid_mono (p p' : positive) (e e' : Z) :
  -2200 <= e -> -2200 <= e' ->
  e <= fexp prec emax (Zpos (digits2_pos p) + e) ->
  e' <= fexp prec emax (Zpos (digits2_pos p') + e') ->
  val (Zpos p) e <= val (Zpos p') e' ->
  val (fst (round_grid (Zpos p) e)) (snd (round_grid (Zpos p) e))
  <= val (fst (round_grid (Zpos p') e')) (snd (round_grid (Zpos p') e')).
Proof.
  intros He He' Hf Hf' HV.
  destruct (round_grid_spec (Zpos p) e ltac:(lia) He) as (E1 & H2 & Hn & Ht).
  destruct (round_grid_spec (Zpos p') e' ltac:(lia) He') as (E1' & H2' & Hn' & Ht').
  set (m2 := fst (round_grid (Zpos p) e)) in *.
  set (e1 := snd (round_grid (Zpos p) e)) in *.
  set (m2' := fst (round_grid (Zpos p') e')) in *.
  set (e1' := snd (round_grid (Zpos p') e')) in *.
  simpl Zdigits2 in E1, E1'.
  pose proof (digits_exp_le p p' e e' He He' HV) as Hd.
  rewrite fexp_eq in *.
  set (d := Zpos (digits2_pos p)) in *. set (d' := Zpos (digits2_pos p')) in *.
  assert (F1 : e1 = Z.max (d + e - 53) (-1074)) by lia.
  assert (F1' : e1' = Z.max (d' + e' - 53) (-1074)) by lia.
  set (V := val (Zpos p) e) in *. set (V' := val (Zpos p') e') in *.
  destruct (Z.eq_dec e1 e1') as [Eq|Ne].
  - (* the same grid: two nearest points out of order would both be ties *)
    rewrite <- Eq in *. unfold val in Hn, Hn', Ht, Ht' |- *.
    assert (HG : 0 < 2 ^ (e1 + 2200)) by (apply Z.pow_pos_nonneg; lia).
    set (G := 2 ^ (e1 + 2200)) in *.
    destruct (Z.le_gt_cases m2 m2') as [Hle|Hgt];
      [apply Z.mul_le_mono_nonneg_r; lia|].
    exfalso.
    assert (Hs : (m2' + 1) * G <= m2 * G) by (apply Z.mul_le_mono_nonneg_r; lia).
    assert (T : Z.even m2 = true) by (apply Ht; lia).
    assert (T' : Z.even m2' = true) by (apply Ht'; lia).
    assert (m2 = m2' + 1).
    { assert ((m2' + 1) * G = m2 * G) by lia.
      apply Z.mul_cancel_r in H; lia. }
    apply Z.even_spec in T, T'. destruct T as [a Ha], T' as [b Hb]. lia.
  - (* a power of two separates the two values *)
    assert (Hlt : e1 < e1') by lia.
    assert (Fd : e1' = d' + e' - 53) by lia.
    set (B := 2 ^ (d' - 1 + e' + 2200)).
    assert (HB' : B <= V').
    { unfold B, V', d'. apply val_digits_lower. exact He'. }
    assert (HB : V < B).
    { pose proof (val_digits_upper p e He) as U. fold d V in U.
      assert (2 ^ (d + e + 2200) <= B) by (unfold B; apply pow2_le; lia).
      lia. }
    assert (HG : 0 < 2 ^ (e1 + 2200)) by (apply Z.pow_pos_nonneg; lia).
    assert (HG' : 0 < 2 ^ (e1' + 2200)) by (apply Z.pow_pos_nonneg; lia).
    assert (Bg : B = 2 ^ (d' - 1 + e' - e1) * 2 ^ (e1 + 2200)).
    { unfold B. rewrite <- Z.pow_add_r by lia. f_equal. lia. }
    assert (Bg' : B = 2 ^ 52 * 2 ^ (e1' + 2200)).
    { unfold B. rewrite <- Z.pow_add_r by lia. f_equal. lia. }
    apply Z.le_trans with B.
    + unfold val in Hn |- *. set (G := 2 ^ (e1 + 2200)) in *.
      set (b := 2 ^ (d' - 1 + e' - e1)) in *. rewrite Bg.
      apply Z.mul_le_mono_nonneg_r; [lia|].
      apply (mul_grid_le m2 b G HG). lia.
    + unfold val in Hn' |- *. set (G' := 2 ^ (e1' + 2200)) in *. rewrite Bg'.
      apply Z.mul_le_mono_nonneg_r; [lia|].
      assert (H : 2 * 2 ^ 52 * G' <= (2 * m2' + 1) * G') by lia.
      apply Z.mul_le_mono_pos_r in H; lia.
Qed.

Lemma digits_le_53 (q : positive) : Zpos q < 2 ^ 53 -> Zpos (digits2_pos q) <= 53.
Proof.
  intros H. pose proof (digits2_lower q) as L.
  assert (Hlt : 2 ^ (Zpos (digits2_pos q) - 1) < 2 ^ 53) by lia.
  apply pow2_lt_inv in Hlt; lia.
Qed.

(** The second half of the rounding loses nothing: it only renormalises a
    mantissa that rounding carried to [2 ^ 53].  The result is zero or a
    canonical mantissa and exponent. *)
Lemma round_core_spec (p : positive) (e : Z) :
  -2200 <= e ->
  e <= fexp prec emax (Zpos (digits2_pos p) + e) ->
  let m2 := fst (round_grid (Zpos p) e) in
  let e1 := snd (round_grid (Zpos p) e) in
  let m3 := fst (round_core (Zpos p) e) in
  let e3 := snd (round_core (Zpos p) e) in
  val m3 e3 = val m2 e1 /\
  0 <= m3 < 2 ^ 53 /\
  -1074 <= e3 /\
  (-1074 < e3 -> 2 ^ 52 <= m3).
Proof.
  intros He Hf.
  destruct (round_grid_spec (Zpos p) e ltac:(lia) He) as (E1 & H2 & Hn & _).
  unfold round_core.
  destruct (round_grid (Zpos p) e) as [m2 e1] eqn:RG. simpl fst in *; simpl snd in *.
  destruct (shr_fexp prec emax m2 e1 loc_Exact) as [r3 e3] eqn:S3. simpl fst; simpl snd.
  simpl Zdigits2 in E1. rewrite fexp_eq in *.
  set (d := Zpos (digits2_pos p)) in *.
  assert (F1 : e1 = Z.max (d + e - 53) (-1074)) by lia.
  assert (He1 : -2200 <= e1) by lia.
  destruct (shr_fexp_val m2 e1 loc_Exact r3 e3 H2 He1 S3) as (H3 & E3 & Hlo & Hhi).
  rewrite fexp_eq in E3.
  pose proof (val_digits_lower p e He) as L. pose proof (val_digits_upper p e He) as U.
  fold d in L, U. set (V := val (Zpos p) e) in *.
  assert (HG : 0 < 2 ^ (e1 + 2200)) by (apply Z.pow_pos_nonneg; lia).
  unfold val in Hn. set (G := 2 ^ (e1 + 2200)) in *.
  (* the rounded mantissa has at most 53 digits, or is 2^53 *)
  assert (Hm2 : m2 <= 2 ^ 53).
  { destruct (Z.le_gt_cases e1 (d + e)) as [Hc|Hc].
    - assert (Bg : 2 ^ (d + e + 2200) = 2 ^ (d + e - e1) * G).
      { unfold G. rewrite <- Z.pow_add_r by lia. f_equal. lia. }
      assert (2 ^ (d + e - e1) <= 2 ^ 53) by (apply pow2_le; lia).
      set (b := 2 ^ (d + e - e1)) in *.
      assert (m2 <= b); [|lia].
      apply (mul_grid_le m2 b G HG). lia.
    - assert (2 * 2 ^ (d + e + 2200) <= G).
      { replace (2 * 2 ^ (d + e + 2200)) with (2 ^ (1 + (d + e + 2200))).
        - unfold G. apply pow2_le; lia.
        - rewrite Z.pow_add_r by lia. reflexivity. }
      assert (Hlt : m2 * G < 1 * G) by lia.
      apply Z.mul_lt_mono_pos_r in Hlt; lia. }
  (* and at least 2^52 above the subnormal range *)
  assert (Hn2 : -1074 < e1 -> 2 ^ 52 <= m2).
  { intros Hc. assert (Bg : 2 ^ (d - 1 + e + 2200) = 2 ^ 52 * G).
    { unfold G. rewrite <- Z.pow_add_r by lia. f_equal. lia. }
    assert (H : 2 * 2 ^ 52 * G <= (2 * m2 + 1) * G) by lia.
    apply Z.mul_le_mono_pos_r in H; lia. }
  destruct (Z.eq_dec m2 (2 ^ 53)) as [Ec|Nc].
  - (* carried to 2^53: one more shift, exact *)
    subst m2. change (Zdigits2 (2 ^ 53)) with 54 in E3.
    assert (E3' : e3 = e1 + 1) by lia.
    assert (Em : val (2 ^ 53) e1 = val (2 ^ 52) e3).
    { rewrite E3'. rewrite <- (val_shift (2 ^ 52) e1 1) by lia. reflexivity. }
    assert (shr_m r3 = 2 ^ 52).
    { rewrite Em in Hlo, Hhi.
      apply val_inv_m in Hlo; [|lia].
      unfold val in Hhi. apply Z.mul_lt_mono_pos_r in Hhi; [lia | apply Z.pow_pos_nonneg; lia]. }
    rewrite H. split; [symmetry; exact Em|]. split; [lia|]. split; lia.
  - (* no further shift *)
    assert (Hlt : m2 < 2 ^ 53) by lia.
    assert (E3' : e3 = e1).
    { destruct m2 as [|q|q]; [simpl Zdigits2 in E3; lia | | lia].
      simpl Zdigits2 in E3. pose proof (digits_le_53 q Hlt). lia. }
    assert (shr_m r3 = m2).
    { rewrite E3' in Hlo, Hhi. apply val_inv_m in Hlo; [|lia].
      unfold val in Hhi. apply Z.mul_lt_mono_pos_r in Hhi; [lia | apply Z.pow_pos_nonneg; lia]. }
    rewrite H, E3'. split; [reflexivity|]. split; [lia|]. split; [lia|].
    exact Hn2.
Qed.

Lemma round_core_stored (p : positive) (e : Z) :
  -2200 <= e ->
  e <= fexp prec emax (Zpos (digits2_pos p) + e) ->
  stored (fst (round_core (Zpos p) e)) (snd (round_core (Zpos p) e)).
Proof. intros He Hf. apply (round_core_spec p e He Hf). Qed.

Lemma round_core_mono (p p' : positive) (e e' : Z) :
  -2200 <= e -> -2200 <= e' ->
  e <= fexp prec emax (Zpos (digits2_pos p) + e) ->
  e' <= fexp prec emax (Zpos (digits2_pos p') + e') ->
  val (Zpos p) e <= val (Zpos p') e' ->
  val (fst (round_core (Zpos p) e)) (snd (round_core (Zpos p) e))
  <= val (fst (round_core (Zpos p') e')) (snd (round_core (Zpos p') e')).
Proof.
  intros He He' Hf Hf' HV.
  destruct (round_core_spec p e He Hf) as (E & _).
  destruct (round_core_spec p' e' He' Hf') as (E' & _).
  rewrite E, E'. apply round_grid_mono; assumption.
Qed.

Lemma bounded_stored (m : positive) (e : Z) :
  bounded prec emax m e = true -> stored (Zpos m) e.
Proof.
  intros B. apply bounded_inv in B. destruct B as [B _].
  pose proof (digits2_upper m) as U. pose proof (digits2_lower m) as L.
  set (d := Zpos (digits2_pos m)) in *.
  assert (Hd : d <= 53) by lia.
  assert (2 ^ d <= 2 ^ 53) by (apply pow2_le; lia).
  unfold stored. split; [lia|]. split; [lia|].
  intros Hc. assert (d = 53) by lia.
  replace (2 ^ 52) with (2 ^ (d - 1)) by (f_equal; lia). exact L.
Qed.

Lemma bounded_fine (m : positive) (e : Z) :
  bounded prec emax m e = true -> e <= fexp prec emax (Zpos (digits2_pos m) + e).
Proof. intros B. apply bounded_inv in B. rewrite fexp_eq. lia. Qed.

(** Values in stored form are ordered as their exponents and mantissas. *)
Lemma stored_le (m m' e e' : Z) :
  stored m e -> stored m' e' -> 0 < m ->
  val m e <= val m' e' -> e < e' \/ (e = e' /\ m <= m').
Proof.
  intros (Hm & He & Hn) (Hm' & He' & Hn') Hpos H.
  destruct (Z.lt_trichotomy e e') as [Hlt|[Heq|Hgt]]; [left; exact Hlt| |].
  - right. split; [exact Heq|]. subst e'. apply val_inv_m with e; [lia | exact H].
  - exfalso. specialize (Hn ltac:(lia)).
    assert (L : val (2 ^ 52) e <= val m e) by (apply val_le_m; lia).
    assert (U : val m' e' <= val (2 ^ 53) e') by (apply val_le_m; lia).
    rewrite pow2_val in L, U by lia.
    assert (m' < 2 ^ 53) by lia.
    assert (U' : val m' e' < val (2 ^ 53) e').
    { unfold val. apply Z.mul_lt_mono_pos_r; [apply Z.pow_pos_nonneg; lia | lia]. }
    rewrite pow2_val in U' by lia.
    assert (2 ^ (53 + e' + 2200) <= 2 ^ (52 + e + 2200)) by (apply pow2_le; lia).
    lia.
Qed.

(** Rounding a stored mantissa and exponent gives them back. *)
Lemma round_core_id (m : positive) (e : Z) :
  bounded prec emax m e = true -> round_core (Zpos m) e = (Zpos m, e).
Proof.
  intros B. pose proof (bounded_fine m e B) as Hf.
  pose proof (bounded_emin m e B) as He.
  destruct (round_grid_spec (Zpos m) e ltac:(lia) ltac:(lia)) as (E1 & H2 & Hn & _).
  destruct (round_core_spec m e ltac:(lia) Hf) as (E & Hs).
  pose proof (bounded_stored m e B) as S.
  simpl Zdigits2 in E1. rewrite fexp_eq in E1.
  destruct (bounded_inv m e B) as [Bi _].
  set (m2 := fst (round_grid (Zpos m) e)) in *.
  set (e1 := snd (round_grid (Zpos m) e)) in *.
  assert (E1' : e1 = e) by lia. rewrite E1' in *.
  assert (Em2 : m2 = Zpos m).
  { unfold val in Hn. assert (HG : 0 < 2 ^ (e + 2200)) by (apply Z.pow_pos_nonneg; lia).
    set (G := 2 ^ (e + 2200)) in *.
    assert (A : m2 <= Zpos m) by (apply (mul_grid_le m2 (Zpos m) G HG); lia).
    assert (A' : Zpos m <= m2) by (apply (mul_grid_le (Zpos m) m2 G HG); lia).
    lia. }
  rewrite Em2 in E.
  destruct (round_core (Zpos m) e) as [m3 e3]. simpl fst in *; simpl snd in *.
  assert (Hpos : 0 < m3).
  { destruct (Z.lt_ge_cases 0 m3) as [H|H]; [exact H|].
    assert (m3 = 0) by (unfold stored in Hs; lia). subst m3.
    change (val 0 e3) with 0 in E. pose proof (val_pos m e ltac:(lia)). lia. }
  destruct (stored_le m3 (Zpos m) e3 e Hs S Hpos ltac:(lia)) as [H1|[H1 H1']];
    destruct (stored_le (Zpos m) m3 e e3 S Hs ltac:(lia) ltac:(lia)) as [H2'|[H2' H2'']];
    try lia.
  f_equal; lia.
Qed.

Lemma pack_le_pos (m m' e e' : Z) :
  stored m e -> stored m' e' -> val m e <= val m' e' ->
  key_le (key (pack false m e)) (key (pack false m' e'))
  /\ SFis_nan (pack false m e) = false /\ SFis_nan (pack false m' e') = false.
Proof.
  intros S S' H.
  assert (Hm : 0 <= m) by (unfold stored in S; lia).
  assert (Hm' : 0 <= m') by (unfold stored in S'; lia).
  destruct m as [|q|q]; [| |lia]; destruct m' as [|q'|q']; try lia; unfold pack.
  - cbv [key key_le SFis_nan]. repeat split; lia.
  - destruct (e' <=? emax - prec); cbv [key key_le SFis_nan]; repeat split; lia.
  - exfalso. change (val 0 e') with 0 in H.
    pose proof (val_pos q e ltac:(unfold stored in S; lia)). lia.
  - destruct (stored_le _ _ _ _ S S' ltac:(lia) H) as [Hl|[Hl Hl']];
      destruct (e <=? emax - prec) eqn:E, (e' <=? emax - prec) eqn:E';
      try apply Z.leb_le in E; try apply Z.leb_le in E';
      try apply Z.leb_gt in E; try apply Z.leb_gt in E';
      cbv [key key_le SFis_nan]; repeat split; lia.
Qed.

Lemma pack_le_neg (m m' e e' : Z) :
  stored m e -> stored m' e' -> val m e <= val m' e' ->
  key_le (key (pack true m' e')) (key (pack true m e))
  /\ SFis_nan (pack true m e) = false /\ SFis_nan (pack true m' e') = false.
Proof.
  intros S S' H.
  assert (Hm : 0 <= m) by (unfold stored in S; lia).
  assert (Hm' : 0 <= m') by (unfold stored in S'; lia).
  destruct m as [|q|q]; [| |lia]; destruct m' as [|q'|q']; try lia; unfold pack.
  - cbv [key key_le SFis_nan]. repeat split; lia.
  - destruct (e' <=? emax - prec); cbv [key key_le SFis_nan]; repeat split; lia.
  - exfalso. change (val 0 e') with 0 in H.
    pose proof (val_pos q e ltac:(unfold stored in S; lia)). lia.
  - destruct (stored_le _ _ _ _ S S' ltac:(lia) H) as [Hl|[Hl Hl']];
      destruct (e <=? emax - prec) eqn:E, (e' <=? emax - prec) eqn:E';
      try apply Z.leb_le in E; try apply Z.leb_le in E';
      try apply Z.leb_gt in E; try apply Z.leb_gt in E';
      cbv [key key_le SFis_nan]; repeat split; lia.
Qed.

Lemma stored_val_le (m m' e e' : Z) :
  stored m e -> stored m' e' -> 0 < m' ->
  e < e' \/ (e = e' /\ m <= m') -> val m e <= val m' e'.
Proof.
  intros (Hm & He & Hn) (Hm' & He' & Hn') Hpos [Hlt|[-> Hle]];
    [|apply val_le_m; exact Hle].
  specialize (Hn' ltac:(lia)).
  assert (U : val m e <= val (2 ^ 53) e) by (apply val_le_m; lia).
  assert (L : val (2 ^ 52) e' <= val m' e') by (apply val_le_m; lia).
  rewrite pow2_val in U, L by lia.
  assert (2 ^ (53 + e + 2200) <= 2 ^ (52 + e' + 2200)) by (apply pow2_le; lia).
  lia.
Qed.

Lemma val_mul (a b e f : Z) :
  -2200 <= e -> -2200 <= f -> -2200 <= e + f ->
  val (a * b) (e + f) * 2 ^ 2200 = val a e * val b f.
Proof.
  intros He Hf Hef. unfold val.
  replace (e + f + 2200) with ((e + 2200) + (f + 2200) - 2200) by lia.
  assert (E : 2 ^ (e + 2200 + (f + 2200) - 2200) * 2 ^ 2200
              = 2 ^ (e + 2200) * 2 ^ (f + 2200)).
  { rewrite <- !Z.pow_add_r by lia. f_equal. lia. }
  transitivity (a * b * (2 ^ (e + 2200 + (f + 2200) - 2200) * 2 ^ 2200)); [ring|].
  rewrite E. ring.
Qed.

(** The exact product of two stored doubles is never coarser than the
    grid it is rounded to. *)
Lemma mul_fine (mx my : positive) (ex ey : Z) :
  bounded prec emax mx ex = true -> bounded prec emax my ey = true ->
  ex + ey <= fexp prec emax (Zpos (digits2_pos (mx * my)) + (ex + ey)).
Proof.
  intros Bx By. apply bounded_inv in Bx, By. rewrite fexp_eq.
  pose proof (digits2_lower mx) as Lx. pose proof (digits2_lower my) as Ly.
  pose proof (digits2_upper (mx * my)) as U. rewrite Pos2Z.inj_mul in U.
  set (dx := Zpos (digits2_pos mx)) in *. set (dy := Zpos (digits2_pos my)) in *.
  set (D := Zpos (digits2_pos (mx * my))) in *.
  assert (Hdx : 1 <= dx) by (unfold dx; lia).
  assert (Hdy : 1 <= dy) by (unfold dy; lia).
  assert (HD : dx + dy - 2 < D).
  { assert (P : 2 ^ (dx - 1) * 2 ^ (dy - 1) <= Zpos mx * Zpos my)
      by (apply Z.mul_le_mono_nonneg; try lia; apply Z.pow_nonneg; lia).
    rewrite <- Z.pow_add_r in P by lia.
    assert (Hlt : 2 ^ (dx - 1 + (dy - 1)) < 2 ^ D) by lia.
    apply pow2_lt_inv in Hlt; unfold D in *; lia. }
  lia.
Qed.

Lemma SFmul_finite (mx mc : positive) (ex ec : Z) :
  SF64mul (S754_finite false mx ex) (S754_finite false mc ec)
  = pack false (fst (round_core (Zpos (mx * mc)) (ex + ec)))
               (snd (round_core (Zpos (mx * mc)) (ex + ec))).
Proof. unfold SF64mul, SFmul. simpl xorb. apply binary_round_aux_core. Qed.

Lemma le_0_of_le (x : float) : le 0 x -> le x x.
Proof. intros H. by_keys. Qed.

(** Multiplication of non-negative doubles by positive finite constants is
    monotone in both factors. *)
Lemma mul_le_mono (x1 x2 c1 c2 : float) (m1 m2 : positive) (e1 e2 : Z) :
  Prim2SF c1 = S754_finite false m1 e1 ->
  Prim2SF c2 = S754_finite false m2 e2 ->
  val (Zpos m1) e1 <= val (Zpos m2) e2 ->
  le 0 x1 -> le x1 x2 -> le (x1 * c1)%float (x2 * c2)%float.
Proof.
  intros Hc1 Hc2 Hc H0 H12.
  pose proof (Prim2SF_bounded c1 _ _ _ Hc1) as B1.
  pose proof (Prim2SF_bounded c2 _ _ _ Hc2) as B2.
  pose proof (bounded_emin _ _ B1) as E1. pose proof (bounded_emin _ _ B2) as E2.
  revert H0 H12. rewrite le_0_nonneg, !le_key, !mul_spec, Hc1, Hc2.
  pose proof (Prim2SF_valid x1) as V1. pose proof (Prim2SF_valid x2) as V2.
  destruct (Prim2SF x1) as [s1|s1| |s1 mx1 ex1]; simpl nonneg; intros H0; subst;
    try contradiction;
    destruct (Prim2SF x2) as [s2|s2| |s2 mx2 ex2]; intros (_ & N2 & H12);
    try discriminate.
  all: try (destruct s2; cbv [key key_le] in H12; simpl; cbv [key key_le SFis_nan];
            repeat split; lia).
  - (* a zero against a positive double *)
    destruct s2; [cbv [key key_le] in H12; lia|].
    simpl in V2. pose proof (bounded_emin _ _ V2) as Ex2.
    rewrite SFmul_finite.
    destruct (pack_le_pos 0 (fst (round_core (Zpos (mx2 * m2)) (ex2 + e2)))
                (-1074) (snd (round_core (Zpos (mx2 * m2)) (ex2 + e2)))) as (K & _ & N).
    + unfold stored. repeat split; lia.
    + apply round_core_stored; [lia | apply mul_fine; assumption].
    + change (val 0 (-1074)) with 0.
      destruct (round_core_stored (mx2 * m2) (ex2 + e2) ltac:(lia) (mul_fine _ _ _ _ V2 B2))
        as ((Hm & _) & _).
      unfold val. apply Z.mul_nonneg_nonneg; [lia | apply Z.pow_nonneg; lia].
    + simpl SF64mul. split; [reflexivity|]. split; [exact N|]. exact K.
  - (* a positive double against infinity *)
    destruct s2; [cbv [key key_le] in H12; lia|].
    simpl in V1. pose proof (bounded_emin _ _ V1) as Ex1.
    rewrite SFmul_finite. simpl SF64mul at 2.
    destruct (pack_le_pos (fst (round_core (Zpos (mx1 * m1)) (ex1 + e1)))
                (fst (round_core (Zpos (mx1 * m1)) (ex1 + e1)))
                (snd (round_core (Zpos (mx1 * m1)) (ex1 + e1)))
                (snd (round_core (Zpos (mx1 * m1)) (ex1 + e1)))) as (_ & N & _);
      [apply round_core_stored; [lia | apply mul_fine; assumption] ..| lia |].
    split; [exact N|]. split; [reflexivity|].
    pose proof (round_core_stored (mx1 * m1) (ex1 + e1) ltac:(lia) (mul_fine _ _ _ _ V1 B1)) as S.
    destruct S as ((Hm & _) & _).
    destruct (fst (round_core (Zpos (mx1 * m1)) (ex1 + e1))) as [|q|q]; [| |lia];
      unfold pack; [|destruct (_ <=? _)]; cbv [key key_le]; lia.
  - (* two positive doubles *)
    destruct s2; [cbv [key key_le] in H12; lia|].
    simpl in V1, V2.
    pose proof (bounded_emin _ _ V1) as Ex1. pose proof (bounded_emin _ _ V2) as Ex2.
    rewrite !SFmul_finite.
    assert (Hx : val (Zpos mx1) ex1 <= val (Zpos mx2) ex2).
    { apply stored_val_le; [apply bounded_stored; assumption .. | lia |].
      cbv [key key_le] in H12. lia. }
    assert (HV : val (Zpos (mx1 * m1)) (ex1 + e1) <= val (Zpos (mx2 * m2)) (ex2 + e2)).
    { apply Z.mul_le_mono_pos_r with (2 ^ 2200); [apply Z.pow_pos_nonneg; lia|].
      rewrite !Pos2Z.inj_mul, !val_mul by lia.
      pose proof (val_pos mx1 ex1 ltac:(lia)). pose proof (val_pos m1 e1 ltac:(lia)).
      apply Z.mul_le_mono_nonneg; lia. }
    pose proof (mul_fine _ _ _ _ V1 B1) as F1.
    pose proof (mul_fine _ _ _ _ V2 B2) as F2.
    assert (L1 : -2200 <= ex1 + e1) by lia.
    assert (L2 : -2200 <= ex2 + e2) by lia.
    destruct (pack_le_pos _ _ _ _
                (round_core_stored _ _ L1 F1) (round_core_stored _ _ L2 F2)
                (round_core_mono _ _ _ _ L1 L2 F1 F2 HV))
      as (K & N & N').
    split; [exact N|]. split; [exact N'|]. exact K.
Qed.

(** ** Sums and differences *)

Lemma binary_round_core (s : bool) (mx : positive) (ex : Z) :
  -2200 <= ex ->
  exists (mz : positive) (ez : Z),
    -2200 <= ez /\
    ez <= fexp prec emax (Zpos (digits2_pos mz) + ez) /\
    val (Zpos mz) ez = val (Zpos mx) ex /\
    binary_round prec emax s mx ex
    = pack s (fst (round_core (Zpos mz) ez)) (snd (round_core (Zpos mz) ez)).
Proof.
  intros Hx. unfold binary_round.
  set (f := fexp prec emax (Zpos (digits2_pos mx) + ex)).
  assert (Hf : -1074 <= f) by (unfold f; rewrite fexp_eq; lia).
  destruct (shl_align_val mx ex f Hx ltac:(lia)) as (E1 & E2 & E3).
  destruct (shl_align mx ex f) as [mz ez]. simpl fst in *; simpl snd in *.
  exists mz, ez. split; [lia|]. split; [rewrite E3; fold f; lia|].
  split; [exact E2|]. apply binary_round_aux_core.
Qed.

Lemma pack_stored (s : bool) (m : positive) (e : Z) :
  bounded prec emax m e = true -> pack s (Zpos m) e = S754_finite s m e.
Proof.
  intros B. apply bounded_emin in B. unfold pack.
  change (emax - prec) with 971. destruct (Z.leb_spec e 971); [reflexivity | lia].
Qed.

(** A rounded value against a stored double, in both signs. *)
Lemma binary_round_le_stored (p mx : positive) (ez ex : Z) :
  -2200 <= ez -> bounded prec emax mx ex = true ->
  val (Zpos p) ez <= val (Zpos mx) ex ->
  (key_le (key (binary_round prec emax false p ez)) (key (S754_finite false mx ex))
   /\ SFis_nan (binary_round prec emax false p ez) = false) /\
  (key_le (key (S754_finite true mx ex)) (key (binary_round prec emax true p ez))
   /\ SFis_nan (binary_round prec emax true p ez) = false).
Proof.
  intros Hz B H.
  pose proof (bounded_emin _ _ B) as Ex.
  assert (Hcore : forall s, exists m3 e3, stored m3 e3 /\ val m3 e3 <= val (Zpos mx) ex /\
             binary_round prec emax s p ez = pack s m3 e3).
  { intros s. destruct (binary_round_core s p ez Hz) as (mz & ez' & Lz & Fz & Vz & R).
    exists (fst (round_core (Zpos mz) ez')), (snd (round_core (Zpos mz) ez')).
    split; [apply round_core_stored; assumption|]. split; [|exact R].
    pose proof (round_core_mono mz mx ez' ex Lz ltac:(lia) Fz (bounded_fine _ _ B)
                  ltac:(lia)) as M.
    rewrite (round_core_id mx ex B) in M. exact M. }
  split.
  - destruct (Hcore false) as (m3 & e3 & S3 & V3 & R). rewrite R.
    destruct (pack_le_pos m3 (Zpos mx) e3 ex S3 (bounded_stored _ _ B) V3) as (K & N & _).
    rewrite (pack_stored false mx ex B) in K. split; assumption.
  - destruct (Hcore true) as (m3 & e3 & S3 & V3 & R). rewrite R.
    destruct (pack_le_neg m3 (Zpos mx) e3 ex S3 (bounded_stored _ _ B) V3) as (K & N & _).
    rewrite (pack_stored true mx ex B) in K. split; assumption.
Qed.

Lemma binary_round_ge_stored (p mx : positive) (ez ex : Z) :
  -2200 <= ez -> bounded prec emax mx ex = true ->
  val (Zpos mx) ex <= val (Zpos p) ez ->
  (key_le (key (S754_finite false mx ex)) (key (binary_round prec emax false p ez))
   /\ SFis_nan (binary_round prec emax false p ez) = false) /\
  (key_le (key (binary_round prec emax true p ez)) (key (S754_finite true mx ex))
   /\ SFis_nan (binary_round prec emax true p ez) = false).
Proof.
  intros Hz B H.
  pose proof (bounded_emin _ _ B) as Ex.
  assert (Hcore : forall s, exists m3 e3, stored m3 e3 /\ val (Zpos mx) ex <= val m3 e3 /\
             binary_round prec emax s p ez = pack s m3 e3).
  { intros s. destruct (binary_round_core s p ez Hz) as (mz & ez' & Lz & Fz & Vz & R).
    exists (fst (round_core (Zpos mz) ez')), (snd (round_core (Zpos mz) ez')).
    split; [apply round_core_stored; assumption|]. split; [|exact R].
    pose proof (round_core_mono mx mz ex ez' ltac:(lia) Lz (bounded_fine _ _ B) Fz
                  ltac:(lia)) as M.
    rewrite (round_core_id mx ex B) in M. exact M. }
  split.
  - destruct (Hcore false) as (m3 & e3 & S3 & V3 & R). rewrite R.
    destruct (pack_le_pos (Zpos mx) m3 ex e3 (bounded_stored _ _ B) S3 V3) as (K & _ & N).
    rewrite (pack_stored false mx ex B) in K. split; assumption.
  - destruct (Hcore true) as (m3 & e3 & S3 & V3 & R). rewrite R.
    destruct (pack_le_neg (Zpos mx) m3 ex e3 (bounded_stored _ _ B) S3 V3) as (K & _ & N).
    rewrite (pack_stored true mx ex B) in K. split; assumption.
Qed.

Lemma aligned_val (mx : positive) (ex ez : Z) :
  -2200 <= ex -> -2200 <= ez -> ez <= ex ->
  val (Zpos (fst (shl_align mx ex ez))) ez = val (Zpos mx) ex.
Proof.
  intros Hx Hz Hle. destruct (shl_align_val mx ex ez Hx Hz) as (S & A & _).
  replace (snd (shl_align mx ex ez)) with ez in A by lia. exact A.
Qed.

Lemma nonpos_key (r x : spec_float) :
  nonpos r -> nonneg x -> key_le (key r) (key x) /\ SFis_nan r = false.
Proof.
  destruct r as [s|s| |s m e], x as [s'|s'| |s' m' e']; simpl; intros Hr Hx; subst;
    try contradiction; cbv [key key_le SFis_nan]; repeat split; lia.
Qed.

(** Subtracting a positive finite double never gives more. *)
Lemma sub_le_self (x y : float) (my : positive) (ey : Z) :
  Prim2SF y = S754_finite false my ey ->
  le x x -> le (x - y)%float x.
Proof.
  intros Hy. pose proof (Prim2SF_bounded y _ _ _ Hy) as By.
  pose proof (bounded_emin _ _ By) as Ey.
  rewrite !le_key, sub_spec, Hy.
  pose proof (Prim2SF_valid x) as Vx.
  destruct (Prim2SF x) as [sx|sx| |sx mx ex]; intros (Nx & _ & _); try discriminate.
  - simpl. cbv [key key_le SFis_nan]. repeat split; lia.
  - simpl. destruct sx; cbv [key key_le SFis_nan]; repeat split; lia.
  - simpl in Vx. pose proof (bounded_emin _ _ Vx) as Ex.
    unfold SF64sub, SFsub, binary_normalize, cond_Zopp.
    set (ez := Z.min ex ey).
    pose proof (aligned_val mx ex ez ltac:(lia) ltac:(lia) ltac:(lia)) as Ax.
    pose proof (aligned_val my ey ez ltac:(lia) ltac:(lia) ltac:(lia)) as Ay.
    set (a := fst (shl_align mx ex ez)) in *. set (b := fst (shl_align my ey ez)) in *.
    pose proof (val_pos my ey ltac:(lia)) as Py.
    destruct sx.
    + change (- Zpos a - Zpos b) with (Zneg (a + b)). cbv iota.
      destruct (binary_round_ge_stored (a + b) mx ez ex ltac:(lia) Vx) as (_ & K & N).
      * rewrite Pos2Z.inj_add, val_add. lia.
      * repeat split; assumption.
    + destruct (Zpos a - Zpos b) as [|p|p] eqn:D.
      * cbv [key key_le SFis_nan]. repeat split; lia.
      * destruct (binary_round_le_stored p mx ez ex ltac:(lia) Vx) as ((K & N) & _).
        -- rewrite <- D. unfold val in *. lia.
        -- repeat split; assumption.
      * destruct (binary_round_val true p ez ltac:(lia)) as (m3 & e3 & Hr & Hm3 & _).
        rewrite Hr. destruct (nonpos_key (pack true m3 e3) (S754_finite false mx ex)
                               (pack_nonpos m3 e3 Hm3) eq_refl) as (K & N).
        repeat split; assumption.
Qed.

Lemma nonneg_key (x r : spec_float) :
  nonpos x -> nonneg r -> key_le (key x) (key r) /\ SFis_nan r = false.
Proof.
  destruct r as [s|s| |s m e], x as [s'|s'| |s' m' e']; simpl; intros Hx Hr; subst;
    try contradiction; cbv [key key_le SFis_nan]; repeat split; lia.
Qed.

(** Adding a positive finite double never gives less. *)
Lemma add_ge_self (x y : float) (my : positive) (ey : Z) :
  Prim2SF y = S754_finite false my ey ->
  le x x -> le x (x + y)%float.
Proof.
  intros Hy. pose proof (Prim2SF_bounded y _ _ _ Hy) as By.
  pose proof (bounded_emin _ _ By) as Ey.
  rewrite !le_key, add_spec, Hy.
  pose proof (Prim2SF_valid x) as Vx.
  destruct (Prim2SF x) as [sx|sx| |sx mx ex]; intros (Nx & _ & _); try discriminate.
  - simpl. cbv [key key_le SFis_nan]. repeat split; lia.
  - simpl. destruct sx; cbv [key key_le SFis_nan]; repeat split; lia.
  - simpl in Vx. pose proof (bounded_emin _ _ Vx) as Ex.
    unfold SF64add, SFadd, binary_normalize, cond_Zopp.
    set (ez := Z.min ex ey).
    pose proof (aligned_val mx ex ez ltac:(lia) ltac:(lia) ltac:(lia)) as Ax.
    pose proof (aligned_val my ey ez ltac:(lia) ltac:(lia) ltac:(lia)) as Ay.
    set (a := fst (shl_align mx ex ez)) in *. set (b := fst (shl_align my ey ez)) in *.
    pose proof (val_pos my ey ltac:(lia)) as Py.
    destruct sx.
    + destruct (- Zpos a + Zpos b) as [|p|p] eqn:D.
      * cbv [key key_le SFis_nan]. repeat split; lia.
      * destruct (binary_round_val false p ez ltac:(lia)) as (m3 & e3 & Hr & Hm3 & _).
        rewrite Hr. destruct (nonneg_key (S754_finite true mx ex) (pack false m3 e3)
                               eq_refl (pack_nonneg m3 e3 Hm3)) as (K & N).
        repeat split; assumption.
      * destruct (binary_round_le_stored p mx ez ex ltac:(lia) Vx) as (_ & K & N).
        -- assert (Zpos p = Zpos a - Zpos b) by lia. unfold val in *. lia.
        -- repeat split; assumption.
    + change (Zpos a + Zpos b) with (Zpos (a + b)). cbv iota.
      destruct (binary_round_ge_stored (a + b) mx ez ex ltac:(lia) Vx) as ((K & N) & _).
      * rewrite Pos2Z.inj_add, val_add. lia.
      * repeat split; assumption.
Qed.

End B64RoundFacts.

(** * Properties of the controller *)

(** ** The constructor *)

Section Construction.

Variables (e a d : float) (logFile : string).

Lemma construct_fields :
  egoSpeed (construct e a d logFile) = e /\
  aheadVehicleSpeed (construct e a d logFile) = a /\
  distanceToAheadVehicle (construct e a d logFile) = d /\
  logFileName (construct e a d logFile) = logFile.
Proof. unfold construct. simpl. repeat split. Qed.

End Construction.

(** The header's default arguments, as the test-suite reads them back. *)
Example construct_default_fields :
  getEgoSpeed construct_default = 0%float /\
  getAheadVehicleSpeed construct_default = 0%float /\
  getDistance construct_default = 0%float /\
  getLogFileName construct_default = "acc_log.txt".
Proof. repeat split. Qed.

(** C10: the constructor stores the three telemetry arguments verbatim,
    whatever their values; the accessors return them unchanged, so a
    negative aheadVehicleSpeed or gap distance passed at construction is the
    state of the object (the example: -20 km/h and -30 m). *)
Theorem construct_stores_verbatim :
  (forall (e a d : float) (logFile : string),
      getEgoSpeed (construct e a d logFile) = e /\
      getAheadVehicleSpeed (construct e a d logFile) = a /\
      getDistance (construct e a d logFile) = d) /\
  (let c := construct (-10) (-20) (-30) "acc_log.txt" in
   B64.lt (getEgoSpeed c) 0 /\ B64.lt (getAheadVehicleSpeed c) 0
   /\ B64.lt (getDistance c) 0).
Proof.
  split.
  - intros e a d logFile. unfold getEgoSpeed, getAheadVehicleSpeed, getDistance.
    destruct (construct_fields e a d logFile) as (He & Ha & Hd & _).
    rewrite He, Ha, Hd. repeat split.
  - cbv zeta. unfold getEgoSpeed, getAheadVehicleSpeed, getDistance, B64.lt.
    simpl. repeat split.
Qed.

(** ** The safe distance *)

(** The header's default construction, and the values the test-suite
    checks with [EXPECT_DOUBLE_EQ]. *)
Example safe_distance_samples :
  calculateSafeDistance (construct 0 0 0 "acc_log.txt") = 0%float /\
  calculateSafeDistance (construct 60 0 0 "acc_log.txt") = 33.333333333333336%float /\
  calculateSafeDistance (construct 120 0 0 "acc_log.txt") = 66.666666666666671%float /\
  calculateSafeDistance (construct 30 0 0 "acc_log.txt") = 16.666666666666668%float.
Proof. repeat split. Qed.

(** Over the range of speeds of the controller, the double the method
    returns is within 10^-6 m of five ninths of egoSpeed. *)
Lemma calculateSafeDistance_accuracy (c : ACC) :
  B64.le 0 (egoSpeed c) -> B64.le (egoSpeed c) 120 ->
  exists v r : Z,
    B64.exact_value (Prim2SF (egoSpeed c)) = Some v /\
    B64.exact_value (Prim2SF (calculateSafeDistance c)) = Some r /\
    (Z.abs (9 * r - 5 * v) * 1000000 <= 9 * B64.val 1 0)%Z.
Proof. apply B64Facts.mul_five_ninths_accuracy. Qed.

(** C5: calculateSafeDistance returns egoSpeed * (5.0 / 9.0), computed in
    double arithmetic, for every egoSpeed; the result depends on no field
    but egoSpeed; a zero egoSpeed (of either sign) gives a zero safe
    distance; for 0 <= egoSpeed <= 120 the result is within 10^-6 of the
    real number 5/9 egoSpeed.  The method is const: it has a result and no
    successor state. *)
Theorem calculateSafeDistance_formula (c : ACC) :
  calculateSafeDistance c = (egoSpeed c * (5 / 9))%float /\
  (forall c' : ACC, egoSpeed c' = egoSpeed c ->
                    calculateSafeDistance c' = calculateSafeDistance c) /\
  (forall a d : float,
      calculateSafeDistance (set_aheadVehicleSpeed a (set_distanceToAheadVehicle d c))
      = calculateSafeDistance c) /\
  (egoSpeed c = 0%float -> calculateSafeDistance c = 0%float) /\
  ((egoSpeed c =? 0)%float = true -> (calculateSafeDistance c =? 0)%float = true) /\
  (B64.le 0 (egoSpeed c) -> B64.le (egoSpeed c) 120 ->
   exists v r : Z,
     B64.exact_value (Prim2SF (egoSpeed c)) = Some v /\
     B64.exact_value (Prim2SF (calculateSafeDistance c)) = Some r /\
     (Z.abs (9 * r - 5 * v) * 1000000 <= 9 * B64.val 1 0)%Z).
Proof.
  split; [reflexivity|]. split.
  - intros c' E. unfold calculateSafeDistance. rewrite E. reflexivity.
  - split; [intros a d; reflexivity|]. split; [|split].
    + intros E. unfold calculateSafeDistance. rewrite E. reflexivity.
    + apply (B64Facts.mul_zero (egoSpeed c) (5 / 9) false 5003999585967218 (-53)).
      reflexivity.
    + apply calculateSafeDistance_accuracy.
Qed.

Lemma calculateSafeDistance_formula_witness :
  egoSpeed (construct 0 50 10 "acc_log.txt") = 0%float /\
  calculateSafeDistance (construct 0 50 10 "acc_log.txt") = 0%float /\
  calculateSafeDistance (construct 60 65 50 "acc_log.txt")
  = calculateSafeDistance (construct 60 0 0 "acc_log.txt").
Proof.
  destruct (calculateSafeDistance_formula (construct 0 50 10 "acc_log.txt"))
    as (_ & _ & _ & Hzero & _).
  destruct (calculateSafeDistance_formula (construct 60 0 0 "acc_log.txt"))
    as (_ & Hego & _).
  split; [reflexivity|]. split.
  - apply Hzero. reflexivity.
  - apply Hego. reflexivity.
Defined.

(** ** Telemetry updates *)

Section Updates.

Variables (c : ACC) (v : float).

Lemma geb_0_le : (v >= 0)%cpp = true <-> B64.le 0 v.
Proof. unfold Cpp.geb, B64.le. reflexivity. Qed.

Lemma lt_0_not_geb : B64.lt v 0 -> (v >= 0)%cpp = false.
Proof. intros H. unfold Cpp.geb. apply B64Facts.lt_not_le. exact H. Qed.

Lemma updateAheadVehicleSpeed_accepts :
  B64.le 0 v -> updateAheadVehicleSpeed v c = set_aheadVehicleSpeed v c.
Proof.
  intros H. unfold updateAheadVehicleSpeed.
  apply geb_0_le in H. rewrite H. reflexivity.
Qed.

Lemma updateAheadVehicleSpeed_rejects :
  B64.lt v 0 -> updateAheadVehicleSpeed v c = c.
Proof.
  intros H. unfold updateAheadVehicleSpeed.
  rewrite (lt_0_not_geb H). reflexivity.
Qed.

Lemma updateDistance_accepts :
  B64.le 0 v -> updateDistance v c = set_distanceToAheadVehicle v c.
Proof.
  intros H. unfold updateDistance.
  apply geb_0_le in H. rewrite H. reflexivity.
Qed.

Lemma updateDistance_rejects :
  B64.lt v 0 -> updateDistance v c = c.
Proof.
  intros H. unfold updateDistance.
  rewrite (lt_0_not_geb H). reflexivity.
Qed.

End Updates.

(** The rejections the test-suite checks. *)
Example update_samples :
  let c := construct 50 45 30 "acc_log.txt" in
  aheadVehicleSpeed (updateAheadVehicleSpeed (-10) c) = 45%float /\
  distanceToAheadVehicle (updateDistance (-5) c) = 30%float /\
  aheadVehicleSpeed (updateAheadVehicleSpeed 60 c) = 60%float /\
  distanceToAheadVehicle (updateDistance 25 c) = 25%float.
Proof. repeat split. Qed.

(** C6: updateAheadVehicleSpeed(v) replaces aheadVehicleSpeed by v when
    v >= 0, the other three fields keeping their values, and leaves the
    whole object unchanged when v < 0; updateDistance does the same on the
    gap distance; neither call has any other outcome: the transition
    returns the object and leaves console and files as they were. *)
Theorem updates_replace_or_ignore (c : ACC) (v : float) :
  (B64.le 0 v ->
   aheadVehicleSpeed (updateAheadVehicleSpeed v c) = v /\
   egoSpeed (updateAheadVehicleSpeed v c) = egoSpeed c /\
   distanceToAheadVehicle (updateAheadVehicleSpeed v c) = distanceToAheadVehicle c /\
   logFileName (updateAheadVehicleSpeed v c) = logFileName c) /\
  (B64.lt v 0 -> updateAheadVehicleSpeed v c = c) /\
  (B64.le 0 v ->
   distanceToAheadVehicle (updateDistance v c) = v /\
   egoSpeed (updateDistance v c) = egoSpeed c /\
   aheadVehicleSpeed (updateDistance v c) = aheadVehicleSpeed c /\
   logFileName (updateDistance v c) = logFileName c) /\
  (B64.lt v 0 -> updateDistance v c = c) /\
  (forall (fixed1 : float -> string) (w : World),
      snd (exec fixed1 (CallUpdateAheadVehicleSpeed v) (c, w)) = w /\
      snd (exec fixed1 (CallUpdateDistance v) (c, w)) = w).
Proof.
  split; [|split; [|split; [|split]]].
  - intros H. rewrite (updateAheadVehicleSpeed_accepts c v H). repeat split.
  - apply updateAheadVehicleSpeed_rejects.
  - intros H. rewrite (updateDistance_accepts c v H). repeat split.
  - apply updateDistance_rejects.
  - intros fixed1 w. split; reflexivity.
Qed.

(** Both functions on an accepted and on a rejected value, from the state
    (50, 60, 30). *)
Lemma updates_replace_or_ignore_witness :
  let c := construct 50 60 30 "acc_log.txt" in
  (B64.le 0 75 /\
   aheadVehicleSpeed (updateAheadVehicleSpeed 75 c) = 75%float /\
   egoSpeed (updateAheadVehicleSpeed 75 c) = 50%float /\
   distanceToAheadVehicle (updateAheadVehicleSpeed 75 c) = 30%float /\
   logFileName (updateAheadVehicleSpeed 75 c) = "acc_log.txt") /\
  (B64.lt (-10) 0 /\ updateAheadVehicleSpeed (-10) c = c) /\
  (B64.le 0 25 /\
   distanceToAheadVehicle (updateDistance 25 c) = 25%float /\
   egoSpeed (updateDistance 25 c) = 50%float /\
   aheadVehicleSpeed (updateDistance 25 c) = 60%float /\
   logFileName (updateDistance 25 c) = "acc_log.txt") /\
  (B64.lt (-5) 0 /\ updateDistance (-5) c = c).
Proof.
  cbv zeta.
  pose proof (updates_replace_or_ignore (construct 50 60 30 "acc_log.txt") 75)
    as (Hspeed & _ & _).
  pose proof (updates_replace_or_ignore (construct 50 60 30 "acc_log.txt") (-10))
    as (_ & Hspeed_rej & _).
  pose proof (updates_replace_or_ignore (construct 50 60 30 "acc_log.txt") 25)
    as (_ & _ & Hgap & _).
  pose proof (updates_replace_or_ignore (construct 50 60 30 "acc_log.txt") (-5))
    as (_ & _ & _ & Hgap_rej & _).
  split; [split; [reflexivity | apply Hspeed; reflexivity]|].
  split; [split; [reflexivity | apply Hspeed_rej; reflexivity]|].
  split; [split; [reflexivity | apply Hgap; reflexivity]|].
  split; [reflexivity | apply Hgap_rej; reflexivity].
Defined.

(** ** What adjustSpeed touches *)

Lemma set_egoSpeed_frame (v : float) (c : ACC) :
  aheadVehicleSpeed (set_egoSpeed v c) = aheadVehicleSpeed c /\
  distanceToAheadVehicle (set_egoSpeed v c) = distanceToAheadVehicle c /\
  logFileName (set_egoSpeed v c) = logFileName c.
Proof. repeat split. Qed.

(** adjustSpeed either leaves the object alone or assigns egoSpeed. *)
Lemma adjustSpeed_assigns (c : ACC) :
  adjustSpeed c = c \/ exists v, adjustSpeed c = set_egoSpeed v c.
Proof.
  unfold adjustSpeed.
  destruct (distanceToAheadVehicle c < calculateSafeDistance c)%cpp.
  - destruct (aheadVehicleSpeed c < egoSpeed c)%cpp; right; eexists; reflexivity.
  - destruct (distanceToAheadVehicle c > calculateSafeDistance c * 1.5)%cpp;
      [|left; reflexivity].
    destruct ((aheadVehicleSpeed c > egoSpeed c)%cpp && (egoSpeed c < 120)%cpp);
      [right; eexists; reflexivity | left; reflexivity].
Qed.

(** C8: adjustSpeed mutates only egoSpeed: aheadVehicleSpeed, the gap
    distance and the log file name keep their values, and the call writes
    nothing to the console or to any file. *)
Theorem adjustSpeed_frame (fixed1 : float -> string) (c : ACC) (w : World) :
  exec fixed1 CallAdjustSpeed (c, w) = (adjustSpeed c, w) /\
  aheadVehicleSpeed (adjustSpeed c) = aheadVehicleSpeed c /\
  distanceToAheadVehicle (adjustSpeed c) = distanceToAheadVehicle c /\
  logFileName (adjustSpeed c) = logFileName c.
Proof.
  split; [reflexivity|].
  destruct (adjustSpeed_assigns c) as [E|[v E]]; rewrite E.
  - repeat split.
  - apply set_egoSpeed_frame.
Qed.

(** ** The zones of adjustSpeed *)

(** [std::max (0.0, x)] is the larger of 0 and [x] in the order of doubles,
    and 0 when [x] is NaN. *)
Lemma max_0_spec (x : float) :
  B64.le 0 (Cpp.max 0 x) /\
  (B64.lt 0 x -> Cpp.max 0 x = x) /\
  ((0 <? x)%float = false -> Cpp.max 0 x = 0%float).
Proof.
  unfold Cpp.max. split; [|split].
  - destruct (0 <? x)%float eqn:E; [apply B64Facts.lt_le; exact E | reflexivity].
  - intros H. unfold B64.lt in H. rewrite H. reflexivity.
  - intros H. rewrite H. reflexivity.
Qed.

(** [std::min (120.0, x)] is the smaller of 120 and [x], and 120 when [x]
    is NaN. *)
Lemma min_120_spec (x : float) :
  B64.le (Cpp.min 120 x) 120 /\
  (B64.lt x 120 -> Cpp.min 120 x = x) /\
  ((x <? 120)%float = false -> Cpp.min 120 x = 120%float).
Proof.
  unfold Cpp.min. split; [|split].
  - destruct (x <? 120)%float eqn:E; [apply B64Facts.lt_le; exact E | reflexivity].
  - intros H. unfold B64.lt in H. rewrite H. reflexivity.
  - intros H. rewrite H. reflexivity.
Qed.

Section Zones.

Variable c : ACC.

Let ego := egoSpeed c.
Let ahead := aheadVehicleSpeed c.
Let gap := distanceToAheadVehicle c.
Let safe := (ego * (5 / 9))%float.

(** Zone 1, the first test of the method. *)
Lemma adjustSpeed_zone1 :
  B64.lt gap safe ->
  adjustSpeed c =
  if (ahead <? ego)%float then set_egoSpeed ahead c
  else set_egoSpeed (Cpp.max 0 (ego - 5)) c.
Proof.
  intros H. unfold adjustSpeed, calculateSafeDistance.
  fold ego ahead gap safe. unfold B64.lt in H. rewrite H. reflexivity.
Qed.

(** Zone 2, reached only when the first test fails. *)
Lemma adjustSpeed_zone2 :
  (gap <? safe)%float = false -> B64.lt (safe * 1.5) gap ->
  adjustSpeed c =
  if (ego <? ahead)%float && (ego <? 120)%float
  then set_egoSpeed (Cpp.min 120 (ego + 2)) c
  else c.
Proof.
  intros H1 H2. unfold adjustSpeed, calculateSafeDistance, Cpp.gtb.
  fold ego ahead gap safe. unfold B64.lt in H2. rewrite H1, H2. reflexivity.
Qed.

(** Neither test succeeds. *)
Lemma adjustSpeed_zone3 :
  (gap <? safe)%float = false -> (safe * 1.5 <? gap)%float = false ->
  adjustSpeed c = c.
Proof.
  intros H1 H2. unfold adjustSpeed, calculateSafeDistance, Cpp.gtb.
  fold ego ahead gap safe. rewrite H1, H2. reflexivity.
Qed.

(** With a non-negative egoSpeed a gap beyond 1.5 safe distances is not
    below the safe distance: rounding the product by 1.5 cannot bring it
    under the safe distance itself. *)
Lemma good_distance_not_too_close :
  B64.le 0 ego -> B64.lt (safe * 1.5) gap -> (gap <? safe)%float = false.
Proof.
  intros H0 H.
  assert (Hs : B64.le 0 safe).
  { apply (B64Facts.mul_nonneg ego (5 / 9) 5003999585967218 (-53));
      [reflexivity | exact H0]. }
  assert (Hm : B64.le safe (safe * 1.5)).
  { apply (B64Facts.mul_ge_self safe 1.5 6755399441055744);
      [reflexivity | vm_compute; discriminate | exact Hs]. }
  apply B64Facts.le_not_lt, B64Facts.lt_le.
  apply B64Facts.le_lt_trans with (safe * 1.5)%float; assumption.
Qed.

End Zones.

(** The cases the specification works out (section 8) and the repository's
    tests check. *)
Example adjustSpeed_samples :
  egoSpeed (adjustSpeed (construct 80 70 20 "acc_log.txt")) = 70%float /\
  egoSpeed (adjustSpeed (construct 90 85 15 "acc_log.txt")) = 85%float /\
  egoSpeed (adjustSpeed (construct 90 95 15 "acc_log.txt")) = 85%float /\
  egoSpeed (adjustSpeed (construct 3 10 0 "acc_log.txt")) = 0%float /\
  egoSpeed (adjustSpeed (construct 60 65 50 "acc_log.txt")) = 60%float /\
  egoSpeed (adjustSpeed (construct 70 80 60 "acc_log.txt")) = 72%float /\
  egoSpeed (adjustSpeed (construct 118 125 120 "acc_log.txt")) = 120%float /\
  egoSpeed (adjustSpeed (construct 0 50 10 "acc_log.txt")) = 2%float.
Proof. repeat split. Qed.

(** C2: in the too-close zone (gap < egoSpeed * 5/9) adjustSpeed sets
    egoSpeed to aheadVehicleSpeed when aheadVehicleSpeed < egoSpeed, and to
    max (0, egoSpeed - 5) when aheadVehicleSpeed >= egoSpeed: to
    egoSpeed - 5 where that is above 0 and to 0 where it is not.  Each
    conclusion gives the whole object after the call. *)
Theorem adjustSpeed_too_close (c : ACC) :
  B64.lt (distanceToAheadVehicle c) (egoSpeed c * (5 / 9)) ->
  (B64.lt (aheadVehicleSpeed c) (egoSpeed c) ->
   adjustSpeed c =
   {| egoSpeed := aheadVehicleSpeed c;
      aheadVehicleSpeed := aheadVehicleSpeed c;
      distanceToAheadVehicle := distanceToAheadVehicle c;
      logFileName := logFileName c |}) /\
  (B64.le (egoSpeed c) (aheadVehicleSpeed c) ->
   (B64.lt 0 (egoSpeed c - 5) ->
    adjustSpeed c =
    {| egoSpeed := egoSpeed c - 5;
       aheadVehicleSpeed := aheadVehicleSpeed c;
       distanceToAheadVehicle := distanceToAheadVehicle c;
       logFileName := logFileName c |}) /\
   (B64.le (egoSpeed c - 5) 0 ->
    adjustSpeed c =
    {| egoSpeed := 0;
       aheadVehicleSpeed := aheadVehicleSpeed c;
       distanceToAheadVehicle := distanceToAheadVehicle c;
       logFileName := logFileName c |})).
Proof.
  intros Hzone. rewrite (adjustSpeed_zone1 c Hzone). split.
  - intros H. unfold B64.lt in H. rewrite H. reflexivity.
  - intros H. rewrite (B64Facts.le_not_lt _ _ H). unfold Cpp.max. split.
    + intros Hpos. unfold B64.lt in Hpos. rewrite Hpos. reflexivity.
    + intros Hneg. rewrite (B64Facts.le_not_lt _ _ Hneg). reflexivity.
Qed.

(** A slower vehicle ahead, a faster one with room for the 5 km/h step,
    and a faster one where the step is floored at 0. *)
Lemma adjustSpeed_too_close_witness :
  (B64.lt 20 (80 * (5 / 9)) /\ B64.lt 70 80 /\
   adjustSpeed (construct 80 70 20 "acc_log.txt")
   = Build_ACC 70 70 20 "acc_log.txt") /\
  (B64.lt 15 (90 * (5 / 9)) /\ B64.le 90 95 /\ B64.lt 0 (90 - 5) /\
   adjustSpeed (construct 90 95 15 "acc_log.txt")
   = Build_ACC 85 95 15 "acc_log.txt") /\
  (B64.lt 0 (3 * (5 / 9)) /\ B64.le 3 10 /\ B64.le (3 - 5) 0 /\
   adjustSpeed (construct 3 10 0 "acc_log.txt")
   = Build_ACC 0 10 0 "acc_log.txt").
Proof.
  split; [|split].
  - split; [reflexivity|]. split; [reflexivity|].
    apply (adjustSpeed_too_close (construct 80 70 20 "acc_log.txt")); reflexivity.
  - split; [reflexivity|]. split; [reflexivity|]. split; [reflexivity|].
    apply (adjustSpeed_too_close (construct 90 95 15 "acc_log.txt")); reflexivity.
  - split; [reflexivity|]. split; [reflexivity|]. split; [reflexivity|].
    apply (adjustSpeed_too_close (construct 3 10 0 "acc_log.txt")); reflexivity.
Defined.

(** The two tests of adjustSpeed are an if / else-if chain.  For a
    non-negative egoSpeed the order does not matter, a gap above 1.5 safe
    distances not being below the safe distance; it does for the negative
    egoSpeed the constructor accepts: at (-90, -80, -60) both tests
    succeed and the first one decides. *)
Example adjustSpeed_zone_order :
  let c := construct (-90) (-80) (-60) "acc_log.txt" in
  B64.lt (1.5 * (egoSpeed c * (5 / 9))) (distanceToAheadVehicle c) /\
  B64.lt (distanceToAheadVehicle c) (egoSpeed c * (5 / 9)) /\
  egoSpeed (adjustSpeed c) = 0%float.
Proof. cbv zeta. repeat split. Qed.

(** C3: in the good-distance zone, a gap above 1.5 * (egoSpeed * 5/9) with
    egoSpeed >= 0 (or, more generally, a gap not below the safe distance),
    adjustSpeed sets egoSpeed to min (120, egoSpeed + 2) when
    aheadVehicleSpeed > egoSpeed and egoSpeed < 120: to egoSpeed + 2 where
    that is below 120 and to 120 where it is not; otherwise it changes
    nothing.  Each conclusion gives the whole object after the call; from
    (118, 125, 120) the result is exactly 120. *)
Theorem adjustSpeed_good_distance (c : ACC) :
  B64.le 0 (egoSpeed c)
  \/ (distanceToAheadVehicle c <? egoSpeed c * (5 / 9))%float = false ->
  B64.lt (1.5 * (egoSpeed c * (5 / 9))) (distanceToAheadVehicle c) ->
  (B64.lt (egoSpeed c) (aheadVehicleSpeed c) -> B64.lt (egoSpeed c) 120 ->
   (B64.lt (egoSpeed c + 2) 120 ->
    adjustSpeed c =
    {| egoSpeed := egoSpeed c + 2;
       aheadVehicleSpeed := aheadVehicleSpeed c;
       distanceToAheadVehicle := distanceToAheadVehicle c;
       logFileName := logFileName c |}) /\
   (B64.le 120 (egoSpeed c + 2) ->
    adjustSpeed c =
    {| egoSpeed := 120;
       aheadVehicleSpeed := aheadVehicleSpeed c;
       distanceToAheadVehicle := distanceToAheadVehicle c;
       logFileName := logFileName c |})) /\
  ((egoSpeed c <? aheadVehicleSpeed c)%float && (egoSpeed c <? 120)%float = false ->
   adjustSpeed c = c).
Proof.
  intros Hnot Hzone. rewrite B64Facts.mul_comm in Hzone.
  assert (H1 : (distanceToAheadVehicle c <? egoSpeed c * (5 / 9))%float = false).
  { destruct Hnot as [H0|H1]; [|exact H1].
    apply good_distance_not_too_close; assumption. }
  rewrite (adjustSpeed_zone2 c H1 Hzone). split.
  - intros Ha Hb. unfold B64.lt in Ha, Hb. rewrite Ha, Hb. unfold Cpp.min.
    simpl andb. cbv iota. split.
    + intros Hlt. unfold B64.lt in Hlt. rewrite Hlt. reflexivity.
    + intros Hge. rewrite (B64Facts.le_not_lt _ _ Hge). reflexivity.
  - intros H. rewrite H. reflexivity.
Qed.

(** The full step, the step that lands on 120, the step the cap cuts
    short, and a state already at the limit. *)
Lemma adjustSpeed_good_distance_witness :
  (B64.le 0 70 /\ B64.lt (1.5 * (70 * (5 / 9))) 60 /\
   B64.lt 70 80 /\ B64.lt 70 120 /\ B64.lt (70 + 2) 120 /\
   adjustSpeed (construct 70 80 60 "acc_log.txt")
   = Build_ACC 72 80 60 "acc_log.txt") /\
  (B64.le 0 118 /\ B64.lt (1.5 * (118 * (5 / 9))) 120 /\
   B64.lt 118 125 /\ B64.lt 118 120 /\ B64.le 120 (118 + 2) /\
   adjustSpeed (construct 118 125 120 "acc_log.txt")
   = Build_ACC 120 125 120 "acc_log.txt") /\
  (B64.le 0 119 /\ B64.lt (1.5 * (119 * (5 / 9))) 120 /\
   B64.lt 119 125 /\ B64.lt 119 120 /\ B64.le 120 (119 + 2) /\
   (119 + 2 =? 120)%float = false /\
   adjustSpeed (construct 119 125 120 "acc_log.txt")
   = Build_ACC 120 125 120 "acc_log.txt") /\
  (B64.le 0 120 /\ B64.lt (1.5 * (120 * (5 / 9))) 120 /\
   (120 <? 130)%float && (120 <? 120)%float = false /\
   adjustSpeed (construct 120 130 120 "acc_log.txt")
   = construct 120 130 120 "acc_log.txt").
Proof.
  split; [|split; [|split]].
  - repeat (split; [reflexivity|]).
    apply (adjustSpeed_good_distance (construct 70 80 60 "acc_log.txt"));
      [left; reflexivity | reflexivity | reflexivity | reflexivity | reflexivity].
  - repeat (split; [reflexivity|]).
    apply (adjustSpeed_good_distance (construct 118 125 120 "acc_log.txt"));
      [left; reflexivity | reflexivity | reflexivity | reflexivity | reflexivity].
  - repeat (split; [reflexivity|]).
    apply (adjustSpeed_good_distance (construct 119 125 120 "acc_log.txt"));
      [left; reflexivity | reflexivity | reflexivity | reflexivity | reflexivity].
  - repeat (split; [reflexivity|]).
    apply (adjustSpeed_good_distance (construct 120 130 120 "acc_log.txt"));
      [left; reflexivity | reflexivity | reflexivity].
Defined.

(** C4: in the comfort zone, egoSpeed * 5/9 <= gap <= 1.5 * (egoSpeed * 5/9)
    with both bounds included, adjustSpeed is the identity on the object, and
    so is any number of calls in a row. *)
Theorem adjustSpeed_comfort_zone (c : ACC) :
  B64.le (egoSpeed c * (5 / 9)) (distanceToAheadVehicle c) ->
  B64.le (distanceToAheadVehicle c) (1.5 * (egoSpeed c * (5 / 9))) ->
  adjustSpeed c = c /\
  forall n : nat, Nat.iter n adjustSpeed c = c.
Proof.
  intros Hlo Hhi. rewrite B64Facts.mul_comm in Hhi.
  assert (E : adjustSpeed c = c).
  { apply adjustSpeed_zone3; apply B64Facts.le_not_lt; assumption. }
  split; [exact E|].
  induction n as [|n IH]; [reflexivity|].
  simpl. rewrite IH. exact E.
Qed.

(** The two boundary points of the comfort zone and an interior point. *)
Lemma adjustSpeed_comfort_zone_witness :
  (let c := construct 60 65 50 "acc_log.txt" in
   distanceToAheadVehicle c = (1.5 * (egoSpeed c * (5 / 9)))%float /\
   adjustSpeed c = c /\ Nat.iter 3 adjustSpeed c = c) /\
  (let c := construct 60 55 (60 * (5 / 9)) "acc_log.txt" in
   distanceToAheadVehicle c = (egoSpeed c * (5 / 9))%float /\
   adjustSpeed c = c) /\
  (let c := construct 60 65 45 "acc_log.txt" in adjustSpeed c = c).
Proof.
  split; [|split]; cbv zeta.
  - split; [reflexivity|].
    destruct (adjustSpeed_comfort_zone (construct 60 65 50 "acc_log.txt"))
      as [E I]; [reflexivity | reflexivity |].
    split; [exact E | exact (I 3%nat)].
  - split; [reflexivity|].
    apply (adjustSpeed_comfort_zone (construct 60 55 (60 * (5 / 9)) "acc_log.txt"));
      reflexivity.
  - apply (adjustSpeed_comfort_zone (construct 60 65 45 "acc_log.txt")); reflexivity.
Defined.

(** ** Bounds on egoSpeed *)

(** The value adjustSpeed leaves in egoSpeed, branch by branch. *)
Lemma egoSpeed_adjustSpeed (c : ACC) :
  egoSpeed (adjustSpeed c) =
  if (distanceToAheadVehicle c <? calculateSafeDistance c)%float then
    if (aheadVehicleSpeed c <? egoSpeed c)%float then aheadVehicleSpeed c
    else Cpp.max 0 (egoSpeed c - 5)
  else if (calculateSafeDistance c * 1.5 <? distanceToAheadVehicle c)%float then
    if (egoSpeed c <? aheadVehicleSpeed c)%float && (egoSpeed c <? 120)%float
    then Cpp.min 120 (egoSpeed c + 2)
    else egoSpeed c
  else egoSpeed c.
Proof.
  unfold adjustSpeed, Cpp.gtb.
  destruct (distanceToAheadVehicle c <? calculateSafeDistance c)%float.
  - destruct (aheadVehicleSpeed c <? egoSpeed c)%float; reflexivity.
  - destruct (calculateSafeDistance c * 1.5 <? distanceToAheadVehicle c)%float;
      [|reflexivity].
    destruct ((egoSpeed c <? aheadVehicleSpeed c)%float && (egoSpeed c <? 120)%float);
      reflexivity.
Qed.

Lemma max_0_le_120 (x : float) : B64.le x 120 -> B64.le (Cpp.max 0 (x - 5)) 120.
Proof.
  intros H. unfold Cpp.max.
  destruct (0 <? x - 5)%float; [apply B64Facts.sub_5_le_120; exact H | reflexivity].
Qed.

Lemma min_120_nonneg (x : float) : B64.le 0 x -> B64.le 0 (Cpp.min 120 (x + 2)).
Proof.
  intros H. unfold Cpp.min.
  destruct (x + 2 <? 120)%float; [|reflexivity].
  apply B64Facts.add_nonneg; [exact H | reflexivity].
Qed.

(** The claim C1 as worded, for every pre-call egoSpeed, fails: the
    repository's own edge-case test constructs (200, 180, 100); the gap is
    below the safe distance 111.1, the vehicle ahead is slower, and egoSpeed
    becomes 180. *)
Lemma adjustSpeed_cap_counterexample :
  egoSpeed (adjustSpeed (construct 200 180 100 "acc_log.txt")) = 180%float /\
  (180 <=? 120)%float = false.
Proof. split; reflexivity. Qed.

Lemma adjustSpeed_le_120 (c : ACC) :
  B64.le (egoSpeed c) 120 -> B64.le (egoSpeed (adjustSpeed c)) 120.
Proof.
  intros H. rewrite egoSpeed_adjustSpeed.
  destruct (distanceToAheadVehicle c <? calculateSafeDistance c)%float.
  - destruct (aheadVehicleSpeed c <? egoSpeed c)%float eqn:Ha.
    + apply B64Facts.lt_le.
      apply B64Facts.lt_le_trans with (egoSpeed c); assumption.
    + apply max_0_le_120. exact H.
  - destruct (calculateSafeDistance c * 1.5 <? distanceToAheadVehicle c)%float;
      [|exact H].
    destruct ((egoSpeed c <? aheadVehicleSpeed c)%float && (egoSpeed c <? 120)%float);
      [|exact H].
    apply min_120_spec.
Qed.

Lemma run_cons (fixed1 : float -> string) (op : Call) (ops : list Call)
    (cw : ACC * World) :
  run fixed1 (op :: ops) cw = run fixed1 ops (exec fixed1 op cw).
Proof. reflexivity. Qed.

(** No other member function assigns egoSpeed. *)
Lemma exec_egoSpeed (fixed1 : float -> string) (op : Call) (c : ACC) (w : World) :
  egoSpeed (fst (exec fixed1 op (c, w))) =
  match op with
  | CallAdjustSpeed => egoSpeed (adjustSpeed c)
  | _ => egoSpeed c
  end.
Proof.
  destruct op; simpl; try reflexivity.
  - unfold updateAheadVehicleSpeed. destruct (speed >= 0)%cpp; reflexivity.
  - unfold updateDistance. destruct (distance >= 0)%cpp; reflexivity.
Qed.

Lemma run_le_120 (fixed1 : float -> string) (ops : list Call) :
  forall (c : ACC) (w : World),
    B64.le (egoSpeed c) 120 ->
    B64.le (egoSpeed (fst (run fixed1 ops (c, w)))) 120.
Proof.
  induction ops as [|op ops IH]; intros c w H; [exact H|].
  rewrite run_cons.
  destruct (exec fixed1 op (c, w)) as [c' w'] eqn:E.
  apply (IH c' w').
  change c' with (fst (c', w')). rewrite <- E, exec_egoSpeed.
  destruct op; try exact H. apply adjustSpeed_le_120. exact H.
Qed.

(** C1, amended: for every state whose egoSpeed is at most 120 before the
    call, egoSpeed is at most 120 after adjustSpeed; egoSpeed at most 120 is
    then an invariant of every sequence of calls on the object. *)
Theorem adjustSpeed_keeps_cap (c : ACC) :
  B64.le (egoSpeed c) 120 ->
  B64.le (egoSpeed (adjustSpeed c)) 120 /\
  forall (fixed1 : float -> string) (ops : list Call) (w : World),
    B64.le (egoSpeed (fst (run fixed1 ops (c, w)))) 120.
Proof.
  intros H. split.
  - apply adjustSpeed_le_120. exact H.
  - intros fixed1 ops w. apply run_le_120. exact H.
Qed.

Lemma adjustSpeed_keeps_cap_witness :
  B64.le 118 120 /\
  B64.le (egoSpeed (adjustSpeed (construct 118 125 120 "acc_log.txt"))) 120 /\
  egoSpeed (adjustSpeed (construct 118 125 120 "acc_log.txt")) = 120%float.
Proof.
  split; [reflexivity|]. split; [|reflexivity].
  apply (adjustSpeed_keeps_cap (construct 118 125 120 "acc_log.txt")).
  reflexivity.
Defined.

Section NonNegative.

Variable c : ACC.
Hypothesis Hc : telemetry_nonneg c.

Lemma updateAheadVehicleSpeed_nonneg (v : float) :
  telemetry_nonneg (updateAheadVehicleSpeed v c).
Proof.
  unfold updateAheadVehicleSpeed, Cpp.geb.
  destruct (0 <=? v)%float eqn:E; [|exact Hc].
  destruct Hc as (He & _ & Hd). repeat split; assumption.
Qed.

Lemma updateDistance_nonneg (v : float) :
  telemetry_nonneg (updateDistance v c).
Proof.
  unfold updateDistance, Cpp.geb.
  destruct (0 <=? v)%float eqn:E; [|exact Hc].
  destruct Hc as (He & Ha & _). repeat split; assumption.
Qed.

Lemma adjustSpeed_egoSpeed_nonneg : B64.le 0 (egoSpeed (adjustSpeed c)).
Proof.
  destruct Hc as (He & Ha & _). rewrite egoSpeed_adjustSpeed.
  destruct (distanceToAheadVehicle c <? calculateSafeDistance c)%float.
  - destruct (aheadVehicleSpeed c <? egoSpeed c)%float; [exact Ha|].
    apply max_0_spec.
  - destruct (calculateSafeDistance c * 1.5 <? distanceToAheadVehicle c)%float;
      [|exact He].
    destruct ((egoSpeed c <? aheadVehicleSpeed c)%float && (egoSpeed c <? 120)%float);
      [|exact He].
    apply min_120_nonneg. exact He.
Qed.

Lemma adjustSpeed_nonneg : telemetry_nonneg (adjustSpeed c).
Proof.
  destruct Hc as (_ & Ha & Hd).
  destruct (adjustSpeed_assigns c) as [E|[v E]].
  - rewrite E. exact Hc.
  - split; [exact adjustSpeed_egoSpeed_nonneg|]. rewrite E. split; assumption.
Qed.

End NonNegative.

Lemma exec_nonneg (fixed1 : float -> string) (op : Call) (c : ACC) (w : World) :
  telemetry_nonneg c -> telemetry_nonneg (fst (exec fixed1 op (c, w))).
Proof.
  intros H. destruct op; simpl.
  - apply updateAheadVehicleSpeed_nonneg. exact H.
  - apply updateDistance_nonneg. exact H.
  - apply adjustSpeed_nonneg. exact H.
  - exact H.
  - exact H.
  - exact H.
Qed.

Lemma run_nonneg (fixed1 : float -> string) (ops : list Call) :
  forall (c : ACC) (w : World),
    telemetry_nonneg c -> telemetry_nonneg (fst (run fixed1 ops (c, w))).
Proof.
  induction ops as [|op ops IH]; intros c w H; [exact H|].
  rewrite run_cons.
  destruct (exec fixed1 op (c, w)) as [c' w'] eqn:E.
  apply (IH c' w').
  change c' with (fst (c', w')). rewrite <- E. apply exec_nonneg. exact H.
Qed.

(** C7: when egoSpeed, aheadVehicleSpeed and the gap distance are all
    non-negative, they are still all non-negative after
    updateAheadVehicleSpeed (v) and after updateDistance (v), for every
    double v, and after adjustSpeed; adjustSpeed never leaves egoSpeed
    below 0; the three stay non-negative along every sequence of calls. *)
Theorem telemetry_nonneg_preserved (c : ACC) (v : float) :
  telemetry_nonneg c ->
  telemetry_nonneg (updateAheadVehicleSpeed v c) /\
  telemetry_nonneg (updateDistance v c) /\
  telemetry_nonneg (adjustSpeed c) /\
  (egoSpeed (adjustSpeed c) <? 0)%float = false /\
  forall (fixed1 : float -> string) (ops : list Call) (w : World),
    telemetry_nonneg (fst (run fixed1 ops (c, w))).
Proof.
  intros Hc.
  split; [apply updateAheadVehicleSpeed_nonneg; exact Hc|].
  split; [apply updateDistance_nonneg; exact Hc|].
  split; [apply adjustSpeed_nonneg; exact Hc|].
  split; [apply B64Facts.le_not_lt, adjustSpeed_egoSpeed_nonneg, Hc|].
  intros fixed1 ops w. apply run_nonneg. exact Hc.
Qed.

Lemma telemetry_nonneg_preserved_witness :
  telemetry_nonneg (construct 3 10 0 "acc_log.txt") /\
  telemetry_nonneg (updateAheadVehicleSpeed (-10) (construct 3 10 0 "acc_log.txt")) /\
  telemetry_nonneg (adjustSpeed (construct 3 10 0 "acc_log.txt")) /\
  egoSpeed (adjustSpeed (construct 3 10 0 "acc_log.txt")) = 0%float.
Proof.
  assert (H : telemetry_nonneg (construct 3 10 0 "acc_log.txt"))
    by (repeat split).
  destruct (telemetry_nonneg_preserved (construct 3 10 0 "acc_log.txt") (-10) H)
    as (Ha & _ & Hs & _).
  split; [exact H|]. split; [exact Ha|]. split; [exact Hs | reflexivity].
Defined.

(** ** Status rendering *)

Section Advisory.

Variable fixed1 : float -> string.
Variables (c : ACC) (w : World).

Lemma console_cout (line : string) (w0 : World) :
  console (cout line w0) = (console w0 ++ [line])%list.
Proof. reflexivity. Qed.

Lemma files_cout (line : string) (w0 : World) : files (cout line w0) = files w0.
Proof. reflexivity. Qed.

Lemma files_fout (path line : string) (w0 : World) :
  files (fout path line w0) path = (files w0 path ++ [line])%list.
Proof. simpl. rewrite String.eqb_refl. reflexivity. Qed.

(** The two tests of the renderers decide [advisory_spec]. *)
Lemma advisory_spec_tests :
  advisory_spec c =
  if (distanceToAheadVehicle c < calculateSafeDistance c)%cpp then TooClose
  else if (distanceToAheadVehicle c > calculateSafeDistance c * 1.2)%cpp
       then HoldSpeed else Caution.
Proof.
  unfold advisory_spec, calculateSafeDistance.
  rewrite (B64Facts.mul_comm 1.2). reflexivity.
Qed.

Lemma displayStatus_console :
  console (displayStatus fixed1 c w) =
  (console w ++ telemetry_lines fixed1 c
     ++ [console_advisory fixed1 c (advisory_spec c); rule])%list.
Proof.
  rewrite advisory_spec_tests. unfold displayStatus, telemetry_lines, rule.
  destruct (distanceToAheadVehicle c < calculateSafeDistance c)%cpp;
    [|destruct (distanceToAheadVehicle c > calculateSafeDistance c * 1.2)%cpp];
    cbv zeta; rewrite !console_cout, <- !app_assoc; reflexivity.
Qed.

Lemma saveStatusToFile_record :
  can_open w (logFileName c) = true ->
  files (saveStatusToFile fixed1 c w) (logFileName c) =
  (files w (logFileName c)
     ++ ["=== ACC Status Record ==="; ("Timestamp: " ++ ctime_now w)%string]
     ++ telemetry_lines fixed1 c
     ++ [log_advisory fixed1 c (advisory_spec c); rule])%list.
Proof.
  intros Hopen. rewrite advisory_spec_tests.
  unfold saveStatusToFile, telemetry_lines, rule. rewrite Hopen.
  destruct (distanceToAheadVehicle c < calculateSafeDistance c)%cpp;
    [|destruct (distanceToAheadVehicle c > calculateSafeDistance c * 1.2)%cpp];
    cbv zeta; rewrite files_cout, !files_fout, <- !app_assoc; reflexivity.
Qed.

Lemma saveStatusToFile_unopened :
  can_open w (logFileName c) = false ->
  files (saveStatusToFile fixed1 c w) = files w /\
  console (saveStatusToFile fixed1 c w)
  = (console w ++ ["Error: Could not open log file for writing!"])%list.
Proof.
  intros Hopen. unfold saveStatusToFile. rewrite Hopen. split; reflexivity.
Qed.

(** With a non-negative egoSpeed the three cases of the classification do
    not overlap: a gap above 1.2 safe distances is not below the safe
    distance. *)
Lemma hold_speed_not_too_close :
  B64.le 0 (egoSpeed c) ->
  B64.lt (1.2 * (egoSpeed c * (5 / 9))) (distanceToAheadVehicle c) ->
  (distanceToAheadVehicle c <? egoSpeed c * (5 / 9))%float = false.
Proof.
  intros H0 H.
  assert (Hs : B64.le 0 (egoSpeed c * (5 / 9))).
  { apply (B64Facts.mul_nonneg (egoSpeed c) (5 / 9) 5003999585967218 (-53));
      [reflexivity | exact H0]. }
  assert (Hm : B64.le (egoSpeed c * (5 / 9)) (1.2 * (egoSpeed c * (5 / 9)))).
  { rewrite (B64Facts.mul_comm 1.2).
    apply (B64Facts.mul_ge_self _ 1.2 5404319552844595);
      [reflexivity | vm_compute; discriminate | exact Hs]. }
  apply B64Facts.le_not_lt, B64Facts.lt_le.
  apply B64Facts.le_lt_trans with (1.2 * (egoSpeed c * (5 / 9)))%float; assumption.
Qed.

Lemma hold_speed_threshold :
  B64.le 0 (egoSpeed c)
  \/ (distanceToAheadVehicle c <? egoSpeed c * (5 / 9))%float = false ->
  B64.lt (1.2 * (egoSpeed c * (5 / 9))) (distanceToAheadVehicle c) ->
  advisory_spec c = HoldSpeed.
Proof.
  intros Hnot H. unfold advisory_spec, Cpp.gtb.
  assert (Hn : (distanceToAheadVehicle c <? egoSpeed c * (5 / 9))%float = false).
  { destruct Hnot as [H0|Hn]; [|exact Hn].
    apply hold_speed_not_too_close; assumption. }
  rewrite Hn. unfold B64.lt in H. rewrite H. reflexivity.
Qed.

End Advisory.

(** A gap between 1.2 and 1.5 safe distances: the renderers say hold speed,
    adjustSpeed is in its comfort zone and does not accelerate towards the
    faster vehicle ahead. *)
Example advisory_threshold_differs :
  let c := construct 60 65 45 "acc_log.txt" in
  advisory_spec c = HoldSpeed /\ adjustSpeed c = c /\
  B64.lt (egoSpeed c) (aheadVehicleSpeed c).
Proof. cbv zeta. repeat split. Qed.

(** C9: both renderers select the advisory of [advisory_spec]: too close
    when gap < egoSpeed * 5/9, else hold speed when
    gap > 1.2 * (egoSpeed * 5/9), else caution (for egoSpeed >= 0 the first
    two tests cannot both succeed).  displayStatus writes it to
    the console after the four telemetry lines; saveStatusToFile appends it
    to the log record when the file opens.  The 1.2 threshold is not the 1.5
    of adjustSpeed: at gap 45 and egoSpeed 60 the advisory is hold speed
    while adjustSpeed is in its comfort zone. *)
Theorem advisory_classification (fixed1 : float -> string) (c : ACC) (w : World) :
  console (displayStatus fixed1 c w) =
  (console w ++ telemetry_lines fixed1 c
     ++ [console_advisory fixed1 c (advisory_spec c); rule])%list /\
  (if can_open w (logFileName c) then
     files (saveStatusToFile fixed1 c w) (logFileName c) =
     (files w (logFileName c)
        ++ ["=== ACC Status Record ==="; ("Timestamp: " ++ ctime_now w)%string]
        ++ telemetry_lines fixed1 c
        ++ [log_advisory fixed1 c (advisory_spec c); rule])%list
   else files (saveStatusToFile fixed1 c w) = files w) /\
  (B64.lt (distanceToAheadVehicle c) (egoSpeed c * (5 / 9)) ->
   advisory_spec c = TooClose) /\
  (B64.le 0 (egoSpeed c)
   \/ (distanceToAheadVehicle c <? egoSpeed c * (5 / 9))%float = false ->
   B64.lt (1.2 * (egoSpeed c * (5 / 9))) (distanceToAheadVehicle c) ->
   advisory_spec c = HoldSpeed) /\
  ((distanceToAheadVehicle c <? egoSpeed c * (5 / 9))%float = false ->
   (1.2 * (egoSpeed c * (5 / 9)) <? distanceToAheadVehicle c)%float = false ->
   advisory_spec c = Caution) /\
  (let c0 := construct 60 65 45 "acc_log.txt" in
   advisory_spec c0 = HoldSpeed /\ adjustSpeed c0 = c0).
Proof.
  split; [apply displayStatus_console|]. split.
  - destruct (can_open w (logFileName c)) eqn:Hopen.
    + apply saveStatusToFile_record. exact Hopen.
    + apply saveStatusToFile_unopened. exact Hopen.
  - split; [|split; [|split]].
    + intros H. unfold advisory_spec. unfold B64.lt in H. rewrite H. reflexivity.
    + apply hold_speed_threshold.
    + intros H1 H2. unfold advisory_spec, Cpp.gtb. rewrite H1, H2. reflexivity.
    + cbv zeta. split; reflexivity.
Qed.

(** * Further properties of the controller *)

(** ** The order of doubles, continued *)

Lemma le_refl_l (x y : float) : B64.le x y -> B64.le x x.
Proof. intros H. B64Facts.by_keys. Qed.

Lemma le_refl_r (x y : float) : B64.le x y -> B64.le y y.
Proof. intros H. B64Facts.by_keys. Qed.

Lemma lt_refl_r (x y : float) : B64.lt x y -> B64.le y y.
Proof. intros H. B64Facts.by_keys. Qed.

(** The order of doubles is total away from NaN. *)
Lemma not_lt_le (x y : float) :
  B64.le x x -> B64.le y y -> (x <? y)%float = false -> B64.le y x.
Proof.
  intros Hx Hy H.
  assert (N : ~ B64.lt x y) by (unfold B64.lt; rewrite H; discriminate).
  rewrite B64Facts.lt_key in N. rewrite B64Facts.le_key in *.
  destruct Hx as (Nx & _ & _), Hy as (Ny & _ & _).
  split; [exact Ny|]. split; [exact Nx|].
  destruct (B64.key (Prim2SF x)) as [[a b] c], (B64.key (Prim2SF y)) as [[a' b'] c'].
  unfold B64.key_le, B64.key_lt in *.
  destruct (Z.lt_trichotomy a a') as [H1|[H1|H1]];
    destruct (Z.lt_trichotomy b b') as [H2|[H2|H2]];
    destruct (Z.le_gt_cases c' c) as [H3|H3];
    try lia; exfalso; apply N; repeat split; try assumption; lia.
Qed.

Lemma sub_5_le_self (x : float) : B64.le x x -> B64.le (x - 5) x.
Proof. apply (B64RoundFacts.sub_le_self x 5 5629499534213120 (-50)). reflexivity. Qed.

Lemma add_2_ge_self (x : float) : B64.le x x -> B64.le x (x + 2).
Proof. apply (B64RoundFacts.add_ge_self x 2 4503599627370496 (-51)). reflexivity. Qed.

(** ** The direction and the size of a step *)

Section Steps.

Variable c : ACC.

(** In the too-close zone the new egoSpeed is at most the old one. *)
Lemma too_close_le :
  B64.le 0 (egoSpeed c) ->
  (distanceToAheadVehicle c <? calculateSafeDistance c)%float = true ->
  B64.le (egoSpeed (adjustSpeed c)) (egoSpeed c).
Proof.
  intros H0 Hz. rewrite egoSpeed_adjustSpeed, Hz.
  destruct (aheadVehicleSpeed c <? egoSpeed c)%float eqn:Ha;
    [apply B64Facts.lt_le; exact Ha|].
  unfold Cpp.max. destruct (0 <? egoSpeed c - 5)%float; [|exact H0].
  apply sub_5_le_self. apply (le_refl_r _ _ H0).
Qed.

(** Outside the too-close zone the new egoSpeed is at least the old one. *)
Lemma not_too_close_ge :
  B64.le (egoSpeed c) (egoSpeed c) ->
  (distanceToAheadVehicle c <? calculateSafeDistance c)%float = false ->
  B64.le (egoSpeed c) (egoSpeed (adjustSpeed c)).
Proof.
  intros Hn Hz. rewrite egoSpeed_adjustSpeed, Hz.
  destruct (calculateSafeDistance c * 1.5 <? distanceToAheadVehicle c)%float;
    [|exact Hn].
  destruct (egoSpeed c <? aheadVehicleSpeed c)%float; simpl andb; [|exact Hn].
  destruct (egoSpeed c <? 120)%float eqn:Hb; [|exact Hn].
  unfold Cpp.min. destruct (egoSpeed c + 2 <? 120)%float.
  - apply add_2_ge_self. exact Hn.
  - apply B64Facts.lt_le. exact Hb.
Qed.

End Steps.

(** ** Monotone products *)

Lemma safe_distance_nonneg (x : float) : B64.le 0 x -> B64.le 0 (x * (5 / 9)).
Proof.
  apply (B64Facts.mul_nonneg x (5 / 9) 5003999585967218 (-53)). reflexivity.
Qed.

Lemma safe_distance_le (x1 x2 : float) :
  B64.le 0 x1 -> B64.le x1 x2 -> B64.le (x1 * (5 / 9)) (x2 * (5 / 9)).
Proof.
  apply (B64RoundFacts.mul_le_mono x1 x2 (5 / 9) (5 / 9)
           5003999585967218 5003999585967218 (-53) (-53));
    [reflexivity | reflexivity | apply Z.le_refl].
Qed.

(** The threshold of the advisory is below the one of adjustSpeed. *)
Lemma advisory_threshold_le (s : float) : B64.le 0 s -> B64.le (s * 1.2) (s * 1.5).
Proof.
  intros H.
  apply (B64RoundFacts.mul_le_mono s s 1.2 1.5
           5404319552844595 6755399441055744 (-52) (-52));
    [reflexivity | reflexivity | apply B64Facts.val_le_m; lia | exact H |].
  apply (le_refl_r _ _ H).
Qed.

(** The values adjustSpeed assigns are never NaN. *)
Lemma slowed_refl (ego ahead : float) :
  B64.le (if (ahead <? ego)%float then ahead else Cpp.max 0 (ego - 5))
         (if (ahead <? ego)%float then ahead else Cpp.max 0 (ego - 5)).
Proof.
  destruct (ahead <? ego)%float eqn:E.
  - apply (le_refl_l _ ego). apply B64Facts.lt_le. exact E.
  - apply (le_refl_r 0). apply max_0_spec.
Qed.

Lemma raised_refl (ego ahead : float) :
  B64.le ego ego ->
  B64.le (if (ego <? ahead)%float && (ego <? 120)%float
          then Cpp.min 120 (ego + 2) else ego)
         (if (ego <? ahead)%float && (ego <? 120)%float
          then Cpp.min 120 (ego + 2) else ego).
Proof.
  intros H.
  destruct ((ego <? ahead)%float && (ego <? 120)%float); [|exact H].
  apply (le_refl_l _ 120). apply min_120_spec.
Qed.

Lemma adjustSpeed_le_add_2 (c : ACC) :
  B64.le 0 (egoSpeed c) -> B64.le (egoSpeed (adjustSpeed c)) (egoSpeed c + 2).
Proof.
  intros H0. pose proof (le_refl_r _ _ H0) as Hn.
  pose proof (add_2_ge_self _ Hn) as Ha.
  destruct (distanceToAheadVehicle c <? calculateSafeDistance c)%float eqn:Hz.
  - apply B64Facts.le_trans with (egoSpeed c); [|exact Ha].
    apply too_close_le; assumption.
  - rewrite egoSpeed_adjustSpeed, Hz.
    destruct (calculateSafeDistance c * 1.5 <? distanceToAheadVehicle c)%float;
      [|exact Ha].
    destruct ((egoSpeed c <? aheadVehicleSpeed c)%float && (egoSpeed c <? 120)%float);
      [|exact Ha].
    unfold Cpp.min. destruct (egoSpeed c + 2 <? 120)%float eqn:E.
    + apply (le_refl_r _ _ Ha).
    + apply not_lt_le; [apply (le_refl_r _ _ Ha) | reflexivity | exact E].
Qed.

Lemma adjustSpeed_ge_sub_5 (c : ACC) :
  B64.le (egoSpeed c) (egoSpeed c) ->
  egoSpeed (adjustSpeed c) = aheadVehicleSpeed c \/
  B64.le (egoSpeed c - 5) (egoSpeed (adjustSpeed c)).
Proof.
  intros Hn. pose proof (sub_5_le_self _ Hn) as Hs.
  destruct (distanceToAheadVehicle c <? calculateSafeDistance c)%float eqn:Hz.
  - rewrite egoSpeed_adjustSpeed, Hz.
    destruct (aheadVehicleSpeed c <? egoSpeed c)%float; [left; reflexivity|].
    right. unfold Cpp.max. destruct (0 <? egoSpeed c - 5)%float eqn:E.
    + apply (le_refl_l _ _ Hs).
    + apply not_lt_le; [reflexivity | apply (le_refl_l _ _ Hs) | exact E].
  - right. apply B64Facts.le_trans with (egoSpeed c); [exact Hs|].
    apply not_too_close_ge; assumption.
Qed.

(** X1: the first test of adjustSpeed decides the direction of the change.
    With a non-negative egoSpeed, a call in the too-close zone never leaves
    a higher egoSpeed than it found, and a call outside it never leaves a
    lower one. *)
Theorem adjustSpeed_direction (c : ACC) :
  B64.le 0 (egoSpeed c) ->
  (B64.lt (distanceToAheadVehicle c) (calculateSafeDistance c) ->
   B64.le (egoSpeed (adjustSpeed c)) (egoSpeed c)) /\
  ((distanceToAheadVehicle c <? calculateSafeDistance c)%float = false ->
   B64.le (egoSpeed c) (egoSpeed (adjustSpeed c))).
Proof.
  intros H0. split.
  - intros Hz. apply too_close_le; assumption.
  - intros Hz. apply not_too_close_ge; [apply (le_refl_r _ _ H0) | exact Hz].
Qed.

Lemma adjustSpeed_direction_witness :
  B64.le 0 90 /\
  B64.le (egoSpeed (adjustSpeed (construct 90 95 15 "acc_log.txt"))) 90 /\
  B64.le 90 (egoSpeed (adjustSpeed (construct 90 95 80 "acc_log.txt"))).
Proof.
  split; [reflexivity|]. split.
  - apply (adjustSpeed_direction (construct 90 95 15 "acc_log.txt")); reflexivity.
  - apply (adjustSpeed_direction (construct 90 95 80 "acc_log.txt")); reflexivity.
Defined.

(** X2: one call moves egoSpeed by a bounded step.  With a non-negative
    egoSpeed, the new egoSpeed is at most the double egoSpeed + 2.0, and it
    is either the speed of the vehicle ahead (the one unbounded drop) or at
    least the double egoSpeed - 5.0. *)
Theorem adjustSpeed_step_bounds (c : ACC) :
  B64.le 0 (egoSpeed c) ->
  B64.le (egoSpeed (adjustSpeed c)) (egoSpeed c + 2) /\
  (egoSpeed (adjustSpeed c) = aheadVehicleSpeed c \/
   B64.le (egoSpeed c - 5) (egoSpeed (adjustSpeed c))).
Proof.
  intros H0. split.
  - apply adjustSpeed_le_add_2. exact H0.
  - apply adjustSpeed_ge_sub_5. apply (le_refl_r _ _ H0).
Qed.

Lemma adjustSpeed_step_bounds_witness :
  B64.le 0 90 /\
  B64.le (egoSpeed (adjustSpeed (construct 90 95 15 "acc_log.txt"))) (90 + 2) /\
  (egoSpeed (adjustSpeed (construct 90 95 15 "acc_log.txt")) = 95%float \/
   B64.le (90 - 5) (egoSpeed (adjustSpeed (construct 90 95 15 "acc_log.txt")))).
Proof.
  split; [reflexivity|].
  apply (adjustSpeed_step_bounds (construct 90 95 15 "acc_log.txt")). reflexivity.
Defined.

(** X3: the safe distance is non-negative and monotone in a non-negative
    egoSpeed: the rounding of the product by 5.0 / 9.0 never reverses the
    order of two speeds. *)
Theorem calculateSafeDistance_monotone (c1 c2 : ACC) :
  B64.le 0 (egoSpeed c1) -> B64.le (egoSpeed c1) (egoSpeed c2) ->
  B64.le 0 (calculateSafeDistance c1) /\
  B64.le (calculateSafeDistance c1) (calculateSafeDistance c2).
Proof.
  intros H0 H. unfold calculateSafeDistance. split.
  - apply safe_distance_nonneg. exact H0.
  - apply safe_distance_le; assumption.
Qed.

Lemma calculateSafeDistance_monotone_witness :
  B64.le 0 60 /\ B64.le 60 90 /\
  B64.le (calculateSafeDistance (construct 60 0 0 "a"))
         (calculateSafeDistance (construct 90 0 0 "b")).
Proof.
  split; [reflexivity|]. split; [reflexivity|].
  apply (calculateSafeDistance_monotone (construct 60 0 0 "a") (construct 90 0 0 "b"));
    reflexivity.
Defined.

(** X4: with both speeds the same and egoSpeed non-negative, the state
    with the larger gap never comes out of adjustSpeed with the lower
    egoSpeed. *)
Theorem adjustSpeed_gap_monotone (c1 c2 : ACC) :
  B64.le 0 (egoSpeed c1) ->
  egoSpeed c2 = egoSpeed c1 ->
  aheadVehicleSpeed c2 = aheadVehicleSpeed c1 ->
  B64.le (distanceToAheadVehicle c1) (distanceToAheadVehicle c2) ->
  B64.le (egoSpeed (adjustSpeed c1)) (egoSpeed (adjustSpeed c2)).
Proof.
  intros H0 He Ha Hd. pose proof (le_refl_r _ _ H0) as Hn.
  assert (Hs : calculateSafeDistance c2 = calculateSafeDistance c1)
    by (unfold calculateSafeDistance; rewrite He; reflexivity).
  destruct (distanceToAheadVehicle c1 <? calculateSafeDistance c1)%float eqn:Hz1.
  - destruct (distanceToAheadVehicle c2 <? calculateSafeDistance c2)%float eqn:Hz2.
    + rewrite !egoSpeed_adjustSpeed, Hz1, Hz2, He, Ha. apply slowed_refl.
    + apply B64Facts.le_trans with (egoSpeed c1).
      * apply too_close_le; assumption.
      * rewrite <- He. apply not_too_close_ge; [rewrite He; exact Hn | exact Hz2].
  - assert (Hz2 : (distanceToAheadVehicle c2 <? calculateSafeDistance c2)%float = false).
    { destruct (distanceToAheadVehicle c2 <? calculateSafeDistance c2)%float eqn:E;
        [|reflexivity].
      rewrite Hs in E.
      rewrite <- Hz1. symmetry.
      apply (B64Facts.le_lt_trans _ (distanceToAheadVehicle c2)); assumption. }
    destruct (calculateSafeDistance c1 * 1.5 <? distanceToAheadVehicle c1)%float eqn:Hg1.
    + assert (Hg2 : (calculateSafeDistance c2 * 1.5 <? distanceToAheadVehicle c2)%float = true).
      { rewrite Hs.
        apply (B64Facts.lt_le_trans _ (distanceToAheadVehicle c1)); assumption. }
      rewrite !egoSpeed_adjustSpeed, Hz1, Hz2, Hg1, Hg2, He, Ha.
      apply raised_refl. exact Hn.
    + rewrite (egoSpeed_adjustSpeed c1), Hz1, Hg1. rewrite <- He.
      apply not_too_close_ge; [rewrite He; exact Hn | exact Hz2].
Qed.

Lemma adjustSpeed_gap_monotone_witness :
  B64.le (egoSpeed (adjustSpeed (construct 80 90 20 "acc_log.txt")))
         (egoSpeed (adjustSpeed (construct 80 90 100 "acc_log.txt"))) /\
  egoSpeed (adjustSpeed (construct 80 90 20 "acc_log.txt")) = 75%float /\
  egoSpeed (adjustSpeed (construct 80 90 100 "acc_log.txt")) = 82%float.
Proof.
  split; [|split; reflexivity].
  apply (adjustSpeed_gap_monotone (construct 80 90 20 "acc_log.txt")
           (construct 80 90 100 "acc_log.txt")); reflexivity.
Defined.

(** ** The advisory and the policy *)

Section AdvisoryPolicy.

Variable c : ACC.
Hypothesis H0 : B64.le 0 (egoSpeed c).

Lemma above_policy_threshold_hold :
  B64.lt (calculateSafeDistance c * 1.5) (distanceToAheadVehicle c) ->
  advisory_spec c = HoldSpeed.
Proof.
  intros H. rewrite advisory_spec_tests.
  assert (Hz : (distanceToAheadVehicle c <? calculateSafeDistance c)%float = false)
    by exact (good_distance_not_too_close c H0 H).
  rewrite Hz.
  assert (Hlt : B64.lt (calculateSafeDistance c * 1.2) (distanceToAheadVehicle c)).
  { apply B64Facts.le_lt_trans with (calculateSafeDistance c * 1.5)%float; [|exact H].
    apply advisory_threshold_le. apply safe_distance_nonneg. exact H0. }
  unfold Cpp.gtb. unfold B64.lt in Hlt. rewrite Hlt. reflexivity.
Qed.

Lemma caution_unchanged : advisory_spec c = Caution -> adjustSpeed c = c.
Proof.
  intros H.
  destruct (distanceToAheadVehicle c <? calculateSafeDistance c)%float eqn:Hz.
  - rewrite advisory_spec_tests, Hz in H. discriminate.
  - apply adjustSpeed_zone3; [exact Hz|].
    change ((calculateSafeDistance c * 1.5 <? distanceToAheadVehicle c)%float = false).
    destruct (calculateSafeDistance c * 1.5 <? distanceToAheadVehicle c)%float eqn:Hg;
      [|reflexivity].
    rewrite (above_policy_threshold_hold Hg) in H. discriminate.
Qed.

Lemma raised_hold :
  B64.lt (egoSpeed c) (egoSpeed (adjustSpeed c)) -> advisory_spec c = HoldSpeed.
Proof.
  intros H.
  destruct (distanceToAheadVehicle c <? calculateSafeDistance c)%float eqn:Hz.
  - exfalso. apply (B64Facts.lt_irrefl (egoSpeed c)).
    apply B64Facts.lt_le_trans with (egoSpeed (adjustSpeed c)); [exact H|].
    apply too_close_le; assumption.
  - destruct (calculateSafeDistance c * 1.5 <? distanceToAheadVehicle c)%float eqn:Hg.
    + apply above_policy_threshold_hold. exact Hg.
    + exfalso. apply (B64Facts.lt_irrefl (egoSpeed c)).
      rewrite egoSpeed_adjustSpeed, Hz, Hg in H. exact H.
Qed.

End AdvisoryPolicy.

(** X5: the advisory displayStatus prints against what adjustSpeed does,
    for a non-negative egoSpeed.  Where the advisory is the caution one,
    adjustSpeed changes nothing; and whenever adjustSpeed raises egoSpeed,
    the advisory displayStatus prints for the state before the call is the
    hold-speed one. *)
Theorem advisory_matches_policy (fixed1 : float -> string) (c : ACC) (w : World) :
  B64.le 0 (egoSpeed c) ->
  (advisory_spec c = Caution -> adjustSpeed c = c) /\
  (B64.lt (egoSpeed c) (egoSpeed (adjustSpeed c)) ->
   console (displayStatus fixed1 c w) =
   (console w ++ telemetry_lines fixed1 c
      ++ ["✅ Safe gap maintained — Hold speed"; rule])%list).
Proof.
  intros H0. split.
  - apply caution_unchanged. exact H0.
  - intros H. rewrite displayStatus_console, (raised_hold c H0 H). reflexivity.
Qed.

Lemma advisory_matches_policy_witness :
  let c := construct 60 80 100 "acc_log.txt" in
  let w := Build_World [] (fun _ => []) (fun _ => true) "now" in
  B64.le 0 60 /\ egoSpeed (adjustSpeed c) = 62%float /\
  console (displayStatus (fun _ => "?") c w) =
   (console w ++ telemetry_lines (fun _ => "?") c
      ++ ["✅ Safe gap maintained — Hold speed"; rule])%list.
Proof.
  cbv zeta. split; [reflexivity|]. split; [reflexivity|].
  apply (advisory_matches_policy (fun _ => "?") (construct 60 80 100 "acc_log.txt"));
    reflexivity.
Defined.

(** ** A session that never settles *)

Lemma adjustSpeed_construct (e a d : float) (f : string) :
  adjustSpeed (construct e a d f) =
  if (d <? e * (5 / 9))%float then
    if (a <? e)%float then construct a a d f
    else construct (Cpp.max 0 (e - 5)) a d f
  else if (e * (5 / 9) * 1.5 <? d)%float then
    if (e <? a)%float && (e <? 120)%float
    then construct (Cpp.min 120 (e + 2)) a d f
    else construct e a d f
  else construct e a d f.
Proof.
  unfold adjustSpeed, calculateSafeDistance, construct, set_egoSpeed, Cpp.gtb; simpl.
  destruct (d <? e * (5 / 9))%float.
  - destruct (a <? e)%float; reflexivity.
  - destruct (e * (5 / 9) * 1.5 <? d)%float; [|reflexivity].
    destruct ((e <? a)%float && (e <? 120)%float); reflexivity.
Qed.

Section Standstill.

Variables (ahead gap : float) (f : string).
Hypothesis Hgap0 : B64.lt 0 gap.
Hypothesis Hgap : B64.lt gap (2 * (5 / 9)).
Hypothesis Hahead : B64.le 2 ahead.

Lemma standstill_starts :
  adjustSpeed (construct 0 ahead gap f) = construct 2 ahead gap f.
Proof.
  rewrite adjustSpeed_construct.
  assert (E1 : (gap <? 0 * (5 / 9))%float = false).
  { change ((gap <? 0)%float = false).
    apply B64Facts.le_not_lt, B64Facts.lt_le. exact Hgap0. }
  assert (E2 : (0 * (5 / 9) * 1.5 <? gap)%float = true) by exact Hgap0.
  assert (E3 : (0 <? ahead)%float = true).
  { apply B64Facts.lt_le_trans with 2%float; [reflexivity | exact Hahead]. }
  rewrite E1, E2, E3. reflexivity.
Qed.

Lemma standstill_stops :
  adjustSpeed (construct 2 ahead gap f) = construct 0 ahead gap f.
Proof.
  rewrite adjustSpeed_construct.
  assert (E1 : (gap <? 2 * (5 / 9))%float = true) by exact Hgap.
  assert (E2 : (ahead <? 2)%float = false).
  { apply B64Facts.le_not_lt. exact Hahead. }
  rewrite E1, E2. reflexivity.
Qed.

End Standstill.

(** X6: a session that never settles.  At standstill behind a vehicle
    moving at 2 km/h or more, with a positive gap below the safe distance
    of 2 km/h (about 1.11 m), repeated calls of adjustSpeed alternate
    egoSpeed between 0 and 2 for ever: 2 after every odd number of calls,
    0 after every even number. *)
Theorem standstill_oscillation (ahead gap : float) (f : string) (n : nat) :
  B64.lt 0 gap -> B64.lt gap (2 * (5 / 9)) -> B64.le 2 ahead ->
  Nat.iter n adjustSpeed (construct 0 ahead gap f) =
  construct (if Nat.even n then 0 else 2) ahead gap f.
Proof.
  intros Hgap0 Hgap Hahead.
  induction n as [|n IH]; [reflexivity|].
  change (Nat.iter (S n) adjustSpeed (construct 0 ahead gap f))
    with (adjustSpeed (Nat.iter n adjustSpeed (construct 0 ahead gap f))).
  rewrite IH, Nat.even_succ, <- Nat.negb_even.
  destruct (Nat.even n); simpl negb; cbv iota.
  - apply standstill_starts; assumption.
  - apply standstill_stops; assumption.
Qed.

Lemma standstill_oscillation_witness :
  B64.lt 0 1 /\ B64.lt 1 (2 * (5 / 9)) /\ B64.le 2 30 /\
  Nat.iter 5 adjustSpeed (construct 0 30 1 "acc_log.txt") =
  construct 2 30 1 "acc_log.txt".
Proof.
  split; [reflexivity|]. split; [reflexivity|]. split; [reflexivity|].
  apply (standstill_oscillation 30 1 "acc_log.txt" 5); reflexivity.
Defined.

(** ** NaN readings *)

Lemma is_nan_Prim2SF (x : float) : PrimFloat.is_nan x = true -> Prim2SF x = S754_nan.
Proof.
  unfold PrimFloat.is_nan. rewrite eqb_spec.
  destruct (Prim2SF x) as [s|s| |s m e]; try reflexivity; unfold SFeqb; simpl.
  - destruct s; discriminate.
  - destruct s; discriminate.
  - destruct s; rewrite Z.compare_refl, ?Pos.compare_refl; simpl;
      try rewrite Pos.compare_refl; discriminate.
Qed.

Lemma ltb_nan_l (x y : float) : PrimFloat.is_nan x = true -> (x <? y)%float = false.
Proof.
  intros H. rewrite ltb_spec, (is_nan_Prim2SF x H). reflexivity.
Qed.

Lemma ltb_nan_r (x y : float) : PrimFloat.is_nan y = true -> (x <? y)%float = false.
Proof.
  intros H. rewrite ltb_spec, (is_nan_Prim2SF y H).
  unfold SFltb. destruct (Prim2SF x) as [s|s| |s m e]; try reflexivity;
    destruct s; reflexivity.
Qed.

Lemma mul_nan_l (x y : float) :
  PrimFloat.is_nan x = true -> PrimFloat.is_nan (x * y) = true.
Proof.
  intros H. unfold PrimFloat.is_nan at 1. rewrite eqb_spec, mul_spec, (is_nan_Prim2SF x H).
  reflexivity.
Qed.

(** X7: a NaN in egoSpeed or in the gap, which the constructor stores as
    given, freezes the controller: both tests of adjustSpeed fail and the
    object is left as it was. *)
Theorem adjustSpeed_nan_frozen (c : ACC) :
  PrimFloat.is_nan (egoSpeed c) = true \/
  PrimFloat.is_nan (distanceToAheadVehicle c) = true ->
  adjustSpeed c = c.
Proof.
  intros [H|H]; apply adjustSpeed_zone3.
  - apply ltb_nan_r. apply mul_nan_l. exact H.
  - apply ltb_nan_l. apply mul_nan_l, mul_nan_l. exact H.
  - apply ltb_nan_l. exact H.
  - apply ltb_nan_r. exact H.
Qed.

Lemma adjustSpeed_nan_frozen_witness :
  PrimFloat.is_nan nan = true /\
  adjustSpeed (construct nan 50 10 "acc_log.txt") = construct nan 50 10 "acc_log.txt".
Proof.
  split; [reflexivity|].
  apply (adjustSpeed_nan_frozen (construct nan 50 10 "acc_log.txt")).
  left. reflexivity.
Defined.

(** ** Telemetry updates, continued *)

Lemma leb_nan_r (x y : float) : PrimFloat.is_nan y = true -> (x <=? y)%float = false.
Proof.
  intros H. rewrite leb_spec, (is_nan_Prim2SF y H).
  unfold SFleb. destruct (Prim2SF x) as [s|s| |s m e]; try reflexivity;
    destruct s; reflexivity.
Qed.

(** X8: a NaN reading is neither negative nor accepted: both update
    functions leave the object as it was. *)
Theorem updates_ignore_nan (c : ACC) (v : float) :
  PrimFloat.is_nan v = true ->
  updateAheadVehicleSpeed v c = c /\ updateDistance v c = c.
Proof.
  intros H. unfold updateAheadVehicleSpeed, updateDistance, Cpp.geb.
  rewrite (leb_nan_r 0 v H). split; reflexivity.
Qed.

Lemma updates_ignore_nan_witness :
  PrimFloat.is_nan nan = true /\
  updateAheadVehicleSpeed nan (construct 60 55 25 "acc_log.txt")
  = construct 60 55 25 "acc_log.txt" /\
  updateDistance nan (construct 60 55 25 "acc_log.txt")
  = construct 60 55 25 "acc_log.txt".
Proof.
  split; [reflexivity|].
  apply (updates_ignore_nan (construct 60 55 25 "acc_log.txt") nan). reflexivity.
Defined.

(** X9: the two update functions are independent of each other, and of
    two calls of the same one the last accepted value is kept: the calls
    commute, and a second call of the same function acts as if the first
    had not been made when its value is accepted and changes nothing when
    it is not. *)
Theorem updates_commute (c : ACC) (a d : float) :
  updateAheadVehicleSpeed a (updateDistance d c)
  = updateDistance d (updateAheadVehicleSpeed a c) /\
  (forall a2, updateAheadVehicleSpeed a2 (updateAheadVehicleSpeed a c)
     = if (a2 >= 0)%cpp then updateAheadVehicleSpeed a2 c
       else updateAheadVehicleSpeed a c) /\
  (forall d2, updateDistance d2 (updateDistance d c)
     = if (d2 >= 0)%cpp then updateDistance d2 c else updateDistance d c).
Proof.
  unfold updateAheadVehicleSpeed, updateDistance. split; [|split].
  - destruct (a >= 0)%cpp, (d >= 0)%cpp; reflexivity.
  - intros a2. destruct (a2 >= 0)%cpp, (a >= 0)%cpp; reflexivity.
  - intros d2. destruct (d2 >= 0)%cpp, (d >= 0)%cpp; reflexivity.
Qed.

(** ** What the renderers touch *)

Section Footprint.

Variable fixed1 : float -> string.

Lemma fout_other (path line p : string) (w : World) :
  String.eqb p path = false -> files (fout path line w) p = files w p.
Proof. intros H. simpl. rewrite H. reflexivity. Qed.

Lemma displayStatus_world (c : ACC) (w : World) :
  files (displayStatus fixed1 c w) = files w /\
  can_open (displayStatus fixed1 c w) = can_open w /\
  ctime_now (displayStatus fixed1 c w) = ctime_now w.
Proof.
  unfold displayStatus.
  destruct (distanceToAheadVehicle c < calculateSafeDistance c)%cpp;
    [|destruct (distanceToAheadVehicle c > calculateSafeDistance c * 1.2)%cpp];
    repeat split.
Qed.

Lemma saveStatusToFile_world (c : ACC) (w : World) :
  can_open (saveStatusToFile fixed1 c w) = can_open w /\
  ctime_now (saveStatusToFile fixed1 c w) = ctime_now w.
Proof.
  unfold saveStatusToFile. destruct (can_open w (logFileName c)); [|split; reflexivity].
  destruct (distanceToAheadVehicle c < calculateSafeDistance c)%cpp;
    [|destruct (distanceToAheadVehicle c > calculateSafeDistance c * 1.2)%cpp];
    split; reflexivity.
Qed.

Lemma saveStatusToFile_other (c : ACC) (w : World) (p : string) :
  String.eqb p (logFileName c) = false ->
  files (saveStatusToFile fixed1 c w) p = files w p.
Proof.
  intros H. unfold saveStatusToFile.
  destruct (can_open w (logFileName c)); [|reflexivity].
  destruct (distanceToAheadVehicle c < calculateSafeDistance c)%cpp;
    [|destruct (distanceToAheadVehicle c > calculateSafeDistance c * 1.2)%cpp];
    cbv zeta; rewrite files_cout, !fout_other by exact H; reflexivity.
Qed.

Lemma saveStatusToFile_console (c : ACC) (w : World) :
  console (saveStatusToFile fixed1 c w) =
  (console w ++
   [if can_open w (logFileName c)
    then ("Status saved to log file: " ++ logFileName c)%string
    else "Error: Could not open log file for writing!"])%list.
Proof.
  unfold saveStatusToFile.
  destruct (can_open w (logFileName c)); [|reflexivity].
  destruct (distanceToAheadVehicle c < calculateSafeDistance c)%cpp;
    [|destruct (distanceToAheadVehicle c > calculateSafeDistance c * 1.2)%cpp];
    reflexivity.
Qed.

(** Every call extends the console and each file, and changes nothing else
    of the world. *)
Lemma exec_world (op : Call) (c : ACC) (w : World) :
  (exists out, console (snd (exec fixed1 op (c, w))) = (console w ++ out)%list) /\
  (forall p, exists rec,
     files (snd (exec fixed1 op (c, w))) p = (files w p ++ rec)%list /\
     (can_open w p = false -> rec = []) /\
     (exists k, List.length rec = (8 * k)%nat)) /\
  can_open (snd (exec fixed1 op (c, w))) = can_open w /\
  ctime_now (snd (exec fixed1 op (c, w))) = ctime_now w.
Proof.
  assert (Hid : (exists out : list string, console w = (console w ++ out)%list) /\
    (forall p, exists rec : list string,
       files w p = (files w p ++ rec)%list /\ (can_open w p = false -> rec = []) /\
       (exists k, List.length rec = (8 * k)%nat)) /\
    can_open w = can_open w /\ ctime_now w = ctime_now w).
  { split; [exists []; symmetry; apply app_nil_r|].
    split; [|split; reflexivity].
    intros p. exists []. split; [symmetry; apply app_nil_r|].
      split; [reflexivity | exists 0%nat; reflexivity]. }
  destruct op; cbn [exec snd]; try exact Hid.
  - (* displayStatus *)
    destruct (displayStatus_world c w) as (Hf & Ho & Ht).
    split; [|split; [|split; assumption]].
    + rewrite displayStatus_console. eexists. reflexivity.
    + intros p. rewrite Hf. exists []. split; [symmetry; apply app_nil_r|].
      split; [reflexivity | exists 0%nat; reflexivity].
  - (* saveStatusToFile *)
    destruct (saveStatusToFile_world c w) as (Ho & Ht).
    split; [|split; [|split; assumption]].
    + rewrite saveStatusToFile_console. eexists. reflexivity.
    + intros p. destruct (String.eqb p (logFileName c)) eqn:E.
      * apply String.eqb_eq in E. subst p.
        destruct (can_open w (logFileName c)) eqn:Hopen.
        -- rewrite (saveStatusToFile_record fixed1 c w Hopen).
           eexists. split; [reflexivity|].
           split; [discriminate | exists 1%nat; reflexivity].
        -- destruct (saveStatusToFile_unopened fixed1 c w Hopen) as [Hf _].
           rewrite Hf. exists []. split; [symmetry; apply app_nil_r|].
      split; [reflexivity | exists 0%nat; reflexivity].
      * rewrite (saveStatusToFile_other c w p E).
        exists []. split; [symmetry; apply app_nil_r|].
      split; [reflexivity | exists 0%nat; reflexivity].
Qed.

End Footprint.

(** X10: what the two renderers touch.  displayStatus writes six lines to
    the console and no file; saveStatusToFile leaves every file but the log
    file as it was, appends eight lines to the log file when it opens and
    none when it does not, and writes one console line that says which of
    the two happened. *)
Theorem rendering_footprint (fixed1 : float -> string) (c : ACC) (w : World) :
  files (displayStatus fixed1 c w) = files w /\
  List.length (console (displayStatus fixed1 c w)) = (List.length (console w) + 6)%nat /\
  (forall p, String.eqb p (logFileName c) = false ->
     files (saveStatusToFile fixed1 c w) p = files w p) /\
  List.length (files (saveStatusToFile fixed1 c w) (logFileName c))
  = (List.length (files w (logFileName c))
     + if can_open w (logFileName c) then 8 else 0)%nat /\
  console (saveStatusToFile fixed1 c w) =
  (console w ++
   [if can_open w (logFileName c)
    then ("Status saved to log file: " ++ logFileName c)%string
    else "Error: Could not open log file for writing!"])%list.
Proof.
  split; [apply displayStatus_world|].
  split; [rewrite displayStatus_console, !List.length_app; reflexivity|].
  split; [intros p; apply saveStatusToFile_other|].
  split; [|apply saveStatusToFile_console].
  destruct (can_open w (logFileName c)) eqn:Hopen.
  - rewrite (saveStatusToFile_record fixed1 c w Hopen), !List.length_app. reflexivity.
  - destruct (saveStatusToFile_unopened fixed1 c w Hopen) as [Hf _].
    rewrite Hf. symmetry. apply Nat.add_0_r.
Qed.

(** X11: over every sequence of calls of the public interface the
    console and every file only grow at their end; a file grows by whole
    eight-line records, a file that cannot be opened does not grow, and
    the rest of the world is as it was. *)
Theorem session_appends_only (fixed1 : float -> string) (ops : list Call)
    (c : ACC) (w : World) :
  (exists out, console (snd (run fixed1 ops (c, w))) = (console w ++ out)%list) /\
  (forall p, exists rec,
     files (snd (run fixed1 ops (c, w))) p = (files w p ++ rec)%list /\
     (can_open w p = false -> rec = []) /\
     (exists k, List.length rec = (8 * k)%nat)) /\
  can_open (snd (run fixed1 ops (c, w))) = can_open w /\
  ctime_now (snd (run fixed1 ops (c, w))) = ctime_now w.
Proof.
  revert c w. induction ops as [|op ops IH]; intros c w.
  - split; [exists []; symmetry; apply app_nil_r|].
    split; [|split; reflexivity].
    intros p. exists []. split; [symmetry; apply app_nil_r|].
    split; [reflexivity | exists 0%nat; reflexivity].
  - rewrite run_cons.
    destruct (exec_world fixed1 op c w) as (Hc1 & Hf1 & Ho1 & Ht1).
    destruct (exec fixed1 op (c, w)) as [c' w'] eqn:E. simpl snd in *.
    destruct (IH c' w') as (Hc2 & Hf2 & Ho2 & Ht2).
    split; [|split; [|split]].
    + destruct Hc1 as [o1 H1], Hc2 as [o2 H2].
      exists (o1 ++ o2)%list. rewrite H2, H1, app_assoc. reflexivity.
    + intros p.
      destruct (Hf1 p) as (r1 & H1 & N1 & k1 & L1), (Hf2 p) as (r2 & H2 & N2 & k2 & L2).
      exists (r1 ++ r2)%list. split; [|split].
      * rewrite H2, H1, app_assoc. reflexivity.
      * intros Hp. rewrite (N1 Hp), N2; [reflexivity|]. rewrite Ho1. exact Hp.
      * exists (k1 + k2)%nat. rewrite List.length_app, L1, L2. lia.
    + rewrite Ho2. exact Ho1.
    + rewrite Ht2. exact Ht1.
Qed.

(** ** Redirecting the log *)

Lemma adjustSpeed_setLogFileName (f : string) (c : ACC) :
  adjustSpeed (setLogFileName f c) = setLogFileName f (adjustSpeed c).
Proof.
  destruct c as [e a d l].
  change (setLogFileName f (Build_ACC e a d l)) with (construct e a d f).
  change (Build_ACC e a d l) with (construct e a d l).
  rewrite !adjustSpeed_construct.
  destruct (d <? e * (5 / 9))%float.
  - destruct (a <? e)%float; reflexivity.
  - destruct (e * (5 / 9) * 1.5 <? d)%float; [|reflexivity].
    destruct ((e <? a)%float && (e <? 120)%float); reflexivity.
Qed.

(** X12: setLogFileName changes the log file name and nothing else, read
    back by the four accessors; it commutes with adjustSpeed; and the next
    saveStatusToFile appends its record to the new file, when it opens, and
    leaves every other file, the former log file included, as it was. *)
Theorem setLogFileName_redirects (fixed1 : float -> string) (f : string)
    (c : ACC) (w : World) :
  getLogFileName (setLogFileName f c) = f /\
  getEgoSpeed (setLogFileName f c) = getEgoSpeed c /\
  getAheadVehicleSpeed (setLogFileName f c) = getAheadVehicleSpeed c /\
  getDistance (setLogFileName f c) = getDistance c /\
  adjustSpeed (setLogFileName f c) = setLogFileName f (adjustSpeed c) /\
  (can_open w f = true ->
   files (saveStatusToFile fixed1 (setLogFileName f c) w) f =
   (files w f
      ++ ["=== ACC Status Record ==="; ("Timestamp: " ++ ctime_now w)%string]
      ++ telemetry_lines fixed1 c
      ++ [log_advisory fixed1 c (advisory_spec c); rule])%list) /\
  (forall p, String.eqb p f = false ->
     files (saveStatusToFile fixed1 (setLogFileName f c) w) p = files w p).
Proof.
  repeat (split; [reflexivity|]).
  split; [apply adjustSpeed_setLogFileName|]. split.
  - intros Hopen.
    apply (saveStatusToFile_record fixed1 (setLogFileName f c) w Hopen).
  - intros p Hp. apply (saveStatusToFile_other fixed1 (setLogFileName f c) w p Hp).
Qed.
